(** * A resource pool on a buffered channel: model of [pool/pool.go]

    The pool keeps idle resources in a buffered Go channel, makes new ones
    with a caller-supplied factory, and serialises [Release] and [Close] on a
    mutex.  The development has two layers, both read off the source:

    - [Module Pool]: every exported function as a computation in a small
      state-and-panic monad, one call at a time;
    - [Module Conc]: the same functions cut into atomic statements, run by
      any number of goroutines under an arbitrary schedule.

    The largest channel size that [make] accepts is a constant of the Go
    runtime, not of this package; it is a parameter of [New].

    Not modelled: the machine running out of memory; a nil factory; panics or
    blocking inside the caller's own factory and [Close] methods. *)

From Stdlib Require Import List String NArith Bool Arith Lia.
Import ListNotations.
Open Scope string_scope.
Open Scope list_scope.

(** ** Values of the Go program *)

(** A non-nil value of the interface type [error]. *)
Inductive errorValue : Type :=
| ErrorsNew (msg : string)     (* made by errors.New in this package *)
| ForeignError (tag : nat).    (* made anywhere else, e.g. by the factory *)

(** The interface type [error]; [None] is nil. *)
Definition error : Type := option errorValue.

(** A concrete resource behind an [io.Closer]: an identity and the value its
    [Close] method hands back. *)
Record Resource : Type := mkResource {
  rid : nat;
  closeResult : error
}.

(** The interface type [io.Closer]; [None] is the nil interface value. *)
Definition io_Closer : Type := option Resource.

(** What the pool does to the outside world, in order. *)
Inductive event : Type :=
| LogPrintln (a b : string)    (* log.Println(a, b) *)
| FactoryCall                  (* p.factory() *)
| CloseCall (r : Resource).    (* r.Close() *)

(** [func() (io.Closer, error)].  The factory has effects of its own, so its
    result may depend on everything that happened before the call. *)
Definition Factory : Type := list event -> io_Closer * error.

(** [chan io.Closer]: buffered values in arrival order, capacity, and whether
    [close] was called on it. *)
Record chan : Type := mkChan {
  buf : list io_Closer;
  cap : N;
  chclosed : bool
}.

(** [make(chan io.Closer, size)].  The runtime refuses a size whose buffer
    does not fit its address space or that does not fit [int]; [limit] is
    the largest size it accepts, which depends on the platform and the Go
    version.  [None] is the panic [makechan: size out of range]. *)
Definition make_chan (limit size : N) : option chan :=
  if (size <=? limit)%N
  then Some {| buf := []; cap := size; chclosed := false |}
  else None.

(** [len(c)] *)
Definition chan_len (c : chan) : N := N.of_nat (List.length (buf c)).

(** Why a goroutine panics. *)
Inductive panicValue : Type :=
| SendOnClosedChannel
| CloseOfClosedChannel
| NilDereference
| UnlockOfUnlockedMutex
| MakechanSizeOutOfRange.

(** How a function without a receiver comes back. *)
Inductive outcome (A : Type) : Type :=
| Returns (a : A)
| Panics (e : panicValue).
Arguments Returns {A} a.
Arguments Panics {A} e.

Definition errorValue_eq_dec (a b : errorValue) : {a = b} + {a <> b}.
Proof. decide equality; [apply string_dec | apply Nat.eq_dec]. Defined.

Definition error_eq_dec (a b : error) : {a = b} + {a <> b}.
Proof. decide equality; apply errorValue_eq_dec. Defined.

Definition Resource_eq_dec (a b : Resource) : {a = b} + {a <> b}.
Proof. decide equality; [apply error_eq_dec | apply Nat.eq_dec]. Defined.

Definition event_eq_dec (a b : event) : {a = b} + {a <> b}.
Proof. decide equality; first [apply string_dec | apply Resource_eq_dec]. Defined.

(** Number of times [r.Close()] was called in a trace. *)
Definition closeCalls (r : Resource) (tr : list event) : nat :=
  count_occ event_eq_dec tr (CloseCall r).

(** Number of times the factory was called in a trace. *)
Definition factoryCalls (tr : list event) : nat :=
  count_occ event_eq_dec tr FactoryCall.

Arguments closeCalls : simpl never.
Arguments factoryCalls : simpl never.

Module Pool.

(** ** The [Pool] struct *)

Record Pool : Type := mkPool {
  m : bool;              (* sync.Mutex, true while locked *)
  resources : chan;
  factory : Factory;
  closed : bool
}.

(** [var ErrPoolClosed = errors.New("pool has been closed")] *)
Definition ErrPoolClosed : error := Some (ErrorsNew "pool has been closed").

(** The object the receiver [p] points to, and the trace so far. *)
Record State : Type := mkState {
  pool : Pool;
  trace : list event
}.

Definition with_m (b : bool) (s : State) : State :=
  let p := pool s in
  {| pool := {| m := b; resources := resources p;
                factory := factory p; closed := closed p |};
     trace := trace s |}.

Definition with_closed (b : bool) (s : State) : State :=
  let p := pool s in
  {| pool := {| m := m p; resources := resources p;
                factory := factory p; closed := b |};
     trace := trace s |}.

Definition with_resources (c : chan) (s : State) : State :=
  let p := pool s in
  {| pool := {| m := m p; resources := c;
                factory := factory p; closed := closed p |};
     trace := trace s |}.

Definition emit (e : event) (s : State) : State :=
  {| pool := pool s; trace := trace s ++ [e] |}.

(** ** Calls as computations *)

Inductive Result (A : Type) : Type :=
| Returned (a : A) (s : State)         (* normal return *)
| Panicked (e : panicValue) (s : State) (* the panic leaves the function *)
| Blocked (s : State)                  (* waits for another goroutine *)
| OutOfFuel.                           (* loop bound of the model exceeded *)
Arguments Returned {A} a s.
Arguments Panicked {A} e s.
Arguments Blocked {A} s.
Arguments OutOfFuel {A}.

Definition M (A : Type) : Type := State -> Result A.

Definition ret {A : Type} (a : A) : M A := fun s => Returned a s.

Definition bind {A B : Type} (c : M A) (k : A -> M B) : M B :=
  fun s =>
    match c s with
    | Returned a s' => k a s'
    | Panicked e s' => Panicked e s'
    | Blocked s' => Blocked s'
    | OutOfFuel => OutOfFuel
    end.

Declare Scope go_scope.
Delimit Scope go_scope with go.
Notation "x <- c ;; k" := (bind c (fun x => k))
  (at level 61, c at next level, right associativity) : go_scope.
Notation "c ;; k" := (bind c (fun _ => k))
  (at level 61, right associativity) : go_scope.
Open Scope go_scope.

(** [defer d] in front of [body]: [d] runs when [body] returns and also when
    it panics; the panic goes on afterwards. *)
Definition defer {A : Type} (d : M unit) (body : M A) : M A :=
  fun s =>
    match body s with
    | Returned a s' =>
        match d s' with
        | Returned _ s'' => Returned a s''
        | Panicked e s'' => Panicked e s''
        | Blocked s'' => Blocked s''
        | OutOfFuel => OutOfFuel
        end
    | Panicked e s' =>
        match d s' with
        | Returned _ s'' => Panicked e s''
        | Panicked e' s'' => Panicked e' s''
        | Blocked s'' => Blocked s''
        | OutOfFuel => OutOfFuel
        end
    | Blocked s' => Blocked s'
    | OutOfFuel => OutOfFuel
    end.

(** [p.m.Lock()] *)
Definition Lock : M unit :=
  fun s => if m (pool s) then Blocked s else Returned tt (with_m true s).

(** [p.m.Unlock()] *)
Definition Unlock : M unit :=
  fun s => if m (pool s) then Returned tt (with_m false s)
           else Panicked UnlockOfUnlockedMutex s.

(** reading [p.closed] *)
Definition get_closed : M bool := fun s => Returned (closed (pool s)) s.

(** [p.closed = b] *)
Definition set_closed (b : bool) : M unit :=
  fun s => Returned tt (with_closed b s).

(** [log.Println(a, b)] *)
Definition Println (a b : string) : M unit :=
  fun s => Returned tt (emit (LogPrintln a b) s).

(** [p.factory()] *)
Definition call_factory : M (io_Closer * error) :=
  fun s => Returned (factory (pool s) (trace s)) (emit FactoryCall s).

(** [r.Close()]: a method call on the nil interface panics. *)
Definition call_Close (r : io_Closer) : M error :=
  fun s =>
    match r with
    | None => Panicked NilDereference s
    | Some x => Returned (closeResult x) (emit (CloseCall x) s)
    end.

(** The receive case of a [select] that has a [default]:
    [Some (r, ok)] when the case fires, [None] when [default] is taken. *)
Definition select_recv : M (option (io_Closer * bool)) :=
  fun s =>
    let c := resources (pool s) in
    match buf c with
    | x :: rest =>
        Returned (Some (x, true))
          (with_resources {| buf := rest; cap := cap c; chclosed := chclosed c |} s)
    | [] =>
        if chclosed c then Returned (Some (None, false)) s
        else Returned None s
    end.

(** [r, ok := <-p.resources] outside a [select]: waits on an empty open
    channel. *)
Definition recv : M (io_Closer * bool) :=
  fun s =>
    let c := resources (pool s) in
    match buf c with
    | x :: rest =>
        Returned (x, true)
          (with_resources {| buf := rest; cap := cap c; chclosed := chclosed c |} s)
    | [] =>
        if chclosed c then Returned (None, false) s
        else Blocked s
    end.

(** The send case of a [select] that has a [default]: [true] when the value
    was buffered, [false] when [default] is taken.  Sending on a closed
    channel panics. *)
Definition select_send (r : io_Closer) : M bool :=
  fun s =>
    let c := resources (pool s) in
    if chclosed c then Panicked SendOnClosedChannel s
    else if (chan_len c <? cap c)%N then
      Returned true
        (with_resources {| buf := buf c ++ [r]; cap := cap c; chclosed := false |} s)
    else Returned false s.

(** [close(p.resources)] *)
Definition close_chan : M unit :=
  fun s =>
    let c := resources (pool s) in
    if chclosed c then Panicked CloseOfClosedChannel s
    else Returned tt
           (with_resources {| buf := buf c; cap := cap c; chclosed := true |} s).

(** ** The exported functions *)

(** [func New(fn, size)] with [fn func() (io.Closer, error)] and [size uint];
    it returns a pool pointer and an error, or panics inside [make].
    [size] is unsigned, hence [N]; [limit] is the largest size [make]
    accepts.  The trace is threaded through to show what [New] does to the
    outside world. *)
Definition New (limit : N) (fn : Factory) (size : N) (tr : list event)
  : outcome (option Pool * error) * list event :=
  if (size <=? 0)%N then
    (Returns (None, Some (ErrorsNew "size value too small")), tr)
  else
    match make_chan limit size with
    | Some c =>
        (Returns (Some {| m := false; resources := c;
                          factory := fn; closed := false |}, None), tr)
    | None => (Panics MakechanSizeOutOfRange, tr)
    end.

(** [func (p) Acquire() (io.Closer, error)] *)
Definition Acquire : M (io_Closer * error) :=
  sel <- select_recv ;;
  match sel with
  | Some (r, ok) =>
      Println "Acquire:" "Shared Resource" ;;
      if negb ok then ret (None, ErrPoolClosed)
      else ret (r, None)
  | None =>
      Println "Acquire:" "New Resource" ;;
      call_factory
  end.

(** [func (p) Release(r io.Closer)] *)
Definition Release (r : io_Closer) : M unit :=
  Lock ;;
  defer Unlock (
    c <- get_closed ;;
    if c then
      (_ <- call_Close r ;; ret tt)
    else
      sent <- select_send r ;;
      if sent then
        Println "Release:" "In Queue"
      else
        (Println "Release:" "Closing" ;;
         _ <- call_Close r ;; ret tt)).

(** [for r := range p.resources { r.Close() }], at most [fuel] rounds. *)
Fixpoint range_resources (fuel : nat) : M unit :=
  rcv <- recv ;;
  match rcv with
  | (r, true) =>
      match fuel with
      | O => fun _ => OutOfFuel
      | S fuel' => _ <- call_Close r ;; range_resources fuel'
      end
  | (_, false) => ret tt
  end.

(** [func (p) Close()].  The loop is given as many rounds as there are
    values in the channel when it starts. *)
Definition Close : M unit :=
  Lock ;;
  defer Unlock (
    c <- get_closed ;;
    if c then ret tt
    else
      set_closed true ;;
      close_chan ;;
      fun s => range_resources (List.length (buf (resources (pool s)))) s).

(** ** Vocabulary for statements about the pool *)

(** The flag and the channel agree, as they do whenever no call is in
    progress. *)
Definition consistent (p : Pool) : Prop :=
  chclosed (resources p) = closed p.

(** The channel [c] with another buffer. *)
Definition chan_with_buf (b : list io_Closer) (c : chan) : chan :=
  {| buf := b; cap := cap c; chclosed := chclosed c |}.

(** The state [Close] leaves behind when it has drained the channel, with
    [closes] added to the trace. *)
Definition shut_down (s : State) (closes : list event) : State :=
  {| pool := {| m := false;
                resources := {| buf := []; cap := cap (resources (pool s));
                                chclosed := true |};
                factory := factory (pool s);
                closed := true |};
     trace := trace s ++ closes |}.

(** The three kinds of call a client can make. *)
Inductive call : Type :=
| CallAcquire
| CallRelease (r : io_Closer)
| CallClose.

(** State after a call that came back to its caller, by return or by panic;
    the second component is the panic, if any. *)
Definition after (c : call) (s : State) : option (State * option panicValue) :=
  let leave {A : Type} (res : Result A) :=
    match res with
    | Returned _ s' => Some (s', None)
    | Panicked e s' => Some (s', Some e)
    | Blocked _ | OutOfFuel => None
    end in
  match c with
  | CallAcquire => leave (Acquire s)
  | CallRelease r => leave (Release r s)
  | CallClose => leave (Close s)
  end.

(** A client that makes the calls [cs] one after the other and goes on after
    a panic (it recovered).  The result is the final state and the panics met
    on the way. *)
Fixpoint replay (cs : list call) (s : State)
  : option (State * list panicValue) :=
  match cs with
  | [] => Some (s, [])
  | c :: cs' =>
      match after c s with
      | Some (s', e) =>
          match replay cs' s' with
          | Some (s'', es) =>
              Some (s'', match e with Some x => x :: es | None => es end)
          | None => None
          end
      | None => None
      end
  end.

(** The round trip as the specification words it: what comes back from the
    second [Acquire] is the value that was released, and the factory was not
    called for it. *)
Definition roundtrip_same_instance (s : State) : Prop :=
  forall (r : io_Closer) (e : error) (s1 : State),
    Acquire s = Returned (r, e) s1 ->
    (chan_len (resources (pool s1)) < cap (resources (pool s1)))%N ->
    exists s2 s3,
      Release r s1 = Returned tt s2 /\
      Acquire s2 = Returned (r, None) s3 /\
      factoryCalls (trace s3) = factoryCalls (trace s2).

(** [New] as the specification words it for sizes above 0: every such
    size of type [uint] (64 bits) gives a pool of that capacity. *)
Definition New_returns_pool_for_every_size (limit : N) : Prop :=
  forall (fn : Factory) (size : N) (tr : list event),
    (0 < size)%N -> (size < 2 ^ 64)%N ->
    New limit fn size tr =
      (Returns
         (Some {| m := false;
                  resources := {| buf := []; cap := size; chclosed := false |};
                  factory := fn;
                  closed := false |}, None), tr).

(** ** Sample data *)

(** A limit of [make] of the order it has on 64-bit Linux. *)
Definition sample_limit : N := 17592186044410.

(** A factory that numbers its resources from 100 and never fails. *)
Definition sample_factory : Factory :=
  fun tr => (Some {| rid := 100 + factoryCalls tr; closeResult := None |}, None).

Definition res1 : Resource := {| rid := 1; closeResult := None |}.

(** A resource whose [Close] fails. *)
Definition res2 : Resource :=
  {| rid := 2; closeResult := Some (ForeignError 7) |}.

Definition res3 : Resource := {| rid := 3; closeResult := None |}.

(** An open pool of capacity 2 with [idle] in its channel. *)
Definition sample_pool (idle : list io_Closer) : State :=
  {| pool := {| m := false;
                resources := {| buf := idle; cap := 2; chclosed := false |};
                factory := sample_factory;
                closed := false |};
     trace := [] |}.

(** The same pool after [Close]. *)
Definition sample_closed (tr : list event) : State :=
  {| pool := {| m := false;
                resources := {| buf := []; cap := 2; chclosed := true |};
                factory := sample_factory;
                closed := true |};
     trace := tr |}.

End Pool.

(** * Many goroutines *)

Module Conc.
Import Pool.

(** Where a goroutine stands.  Inside a call the constructor names the source
    line of the statement it runs next and carries the local variables that
    are live there. *)
Inductive goroutine : Type :=
| Idle
(* Acquire *)
| A40                                   (* select { case r, ok := <-p.resources: ... default: ... } *)
| A43 (r : io_Closer) (ok : bool)       (* log.Println("Acquire:", "Shared Resource") *)
| A44 (r : io_Closer) (ok : bool)       (* if !ok { return nil, ErrPoolClosed }; return r, nil *)
| A51                                   (* log.Println("Acquire:", "New Resource") *)
| A52                                   (* return p.factory() *)
| AcquireReturned (r : io_Closer) (e : error)
(* Release *)
| R59 (r : io_Closer)                   (* p.m.Lock() *)
| R63 (r : io_Closer)                   (* if p.closed *)
| R64 (r : io_Closer)                   (* r.Close(); return *)
| R68 (r : io_Closer)                   (* select { case p.resources <- r: ... default: ... } *)
| R71                                   (* log.Println("Release:", "In Queue") *)
| R75 (r : io_Closer)                   (* log.Println("Release:", "Closing") *)
| R76 (r : io_Closer)                   (* r.Close() *)
| R60                                   (* the deferred p.m.Unlock(), on return *)
| ReleaseReturned
(* Close *)
| C83                                   (* p.m.Lock() *)
| C87                                   (* if p.closed { return } *)
| C92                                   (* p.closed = true *)
| C96                                   (* close(p.resources) *)
| C99                                   (* for r := range p.resources *)
| C100 (r : io_Closer)                  (* r.Close() *)
| C84                                   (* the deferred p.m.Unlock(), on return *)
| CloseReturned
(* panics *)
| Unwinding (e : panicValue)            (* the deferred p.m.Unlock(), on panic *)
| PanickedOut (e : panicValue).         (* the panic has left the call *)

(** Run the atomic statement [c]; go on at [k] with its result, at
    [onpanic] when it panics; no move when it has to wait. *)
Definition atomic {A : Type} (c : M A) (k : A -> goroutine)
    (onpanic : panicValue -> goroutine) (s : State)
  : option (goroutine * State) :=
  match c s with
  | Returned a s' => Some (k a, s')
  | Panicked e s' => Some (onpanic e, s')
  | Blocked _ => None
  | OutOfFuel => None
  end.

(** One statement of one goroutine. *)
Definition gstep (g : goroutine) (s : State) : option (goroutine * State) :=
  match g with
  | Idle | AcquireReturned _ _ | ReleaseReturned | CloseReturned
  | PanickedOut _ => None
  (* Acquire: no deferred call, a panic leaves at once *)
  | A40 =>
      atomic select_recv
        (fun sel => match sel with
                    | Some (r, ok) => A43 r ok
                    | None => A51
                    end) PanickedOut s
  | A43 r ok =>
      atomic (Println "Acquire:" "Shared Resource") (fun _ => A44 r ok)
        PanickedOut s
  | A44 r ok =>
      Some (if negb ok then AcquireReturned None ErrPoolClosed
            else AcquireReturned r None, s)
  | A51 =>
      atomic (Println "Acquire:" "New Resource") (fun _ => A52) PanickedOut s
  | A52 =>
      atomic call_factory (fun re => AcquireReturned (fst re) (snd re))
        PanickedOut s
  (* Release *)
  | R59 r => atomic Lock (fun _ => R63 r) PanickedOut s
  | R63 r => atomic get_closed (fun c => if c then R64 r else R68 r) Unwinding s
  | R64 r => atomic (call_Close r) (fun _ => R60) Unwinding s
  | R68 r =>
      atomic (select_send r) (fun sent => if sent then R71 else R75 r)
        Unwinding s
  | R71 => atomic (Println "Release:" "In Queue") (fun _ => R60) Unwinding s
  | R75 r => atomic (Println "Release:" "Closing") (fun _ => R76 r) Unwinding s
  | R76 r => atomic (call_Close r) (fun _ => R60) Unwinding s
  | R60 => atomic Unlock (fun _ => ReleaseReturned) PanickedOut s
  (* Close *)
  | C83 => atomic Lock (fun _ => C87) PanickedOut s
  | C87 => atomic get_closed (fun c => if c then C84 else C92) Unwinding s
  | C92 => atomic (set_closed true) (fun _ => C96) Unwinding s
  | C96 => atomic close_chan (fun _ => C99) Unwinding s
  | C99 =>
      atomic recv (fun rcv => match rcv with
                              | (r, true) => C100 r
                              | (_, false) => C84
                              end) Unwinding s
  | C100 r => atomic (call_Close r) (fun _ => C99) Unwinding s
  | C84 => atomic Unlock (fun _ => CloseReturned) PanickedOut s
  (* a panicking call runs its deferred Unlock and leaves *)
  | Unwinding e => atomic Unlock (fun _ => PanickedOut e) PanickedOut s
  end.

(** First statement of a call. *)
Definition entry (c : call) : goroutine :=
  match c with
  | CallAcquire => A40
  | CallRelease r => R59 r
  | CallClose => C83
  end.

(** Outside every call: free to start one. *)
Definition outside (g : goroutine) : bool :=
  match g with
  | Idle | AcquireReturned _ _ | ReleaseReturned | CloseReturned
  | PanickedOut _ => true
  | _ => false
  end.

(** The pool object, the trace, and every goroutine by number. *)
Record config : Type := mkConfig {
  shared : State;
  goroutines : nat -> goroutine
}.

Definition upd (gs : nat -> goroutine) (i : nat) (g : goroutine)
  : nat -> goroutine :=
  fun j => if Nat.eqb j i then g else gs j.

(** What the scheduler can do with goroutine [i]: let it start a call, or
    let it run its next statement. *)
Inductive move : Type :=
| Start (c : call)
| Step.

Definition exec (cfg : config) (im : nat * move) : config :=
  let (i, mv) := im in
  match mv with
  | Start c =>
      if outside (goroutines cfg i)
      then {| shared := shared cfg;
              goroutines := upd (goroutines cfg) i (entry c) |}
      else cfg
  | Step =>
      match gstep (goroutines cfg i) (shared cfg) with
      | Some (g', s') =>
          {| shared := s'; goroutines := upd (goroutines cfg) i g' |}
      | None => cfg
      end
  end.

(** A schedule is any list of moves. *)
Definition run (sched : list (nat * move)) (cfg : config) : config :=
  fold_left exec sched cfg.

(** A pool fresh from [New], no goroutine inside a call. *)
Definition init (p : Pool) : config :=
  {| shared := {| pool := p; trace := [] |}; goroutines := fun _ => Idle |}.

(** One goroutine left alone for [n] statements. *)
Fixpoint solo (n : nat) (g : goroutine) (s : State) : goroutine * State :=
  match n with
  | O => (g, s)
  | S n' =>
      match gstep g s with
      | Some (g', s') => solo n' g' s'
      | None => (g, s)
      end
  end.

(** Left alone, the goroutine at [g] in state [s] gets to [g'] in state
    [s']. *)
Definition reaches (g : goroutine) (s : State) (g' : goroutine) (s' : State)
  : Prop :=
  exists n : nat, solo n g s = (g', s').

(** ** Program points *)

(** Between [Lock] and the deferred [Unlock]. *)
Definition holds (g : goroutine) : bool :=
  match g with
  | R63 _ | R64 _ | R68 _ | R71 | R75 _ | R76 _ | R60
  | C87 | C92 | C96 | C99 | C100 _ | C84 | Unwinding _ => true
  | _ => false
  end.

(** In [Close], past [p.closed = true]. *)
Definition flag_set (g : goroutine) : bool :=
  match g with
  | C96 | C99 | C100 _ => true
  | _ => false
  end.

(** Just after reading [p.closed] as false. *)
Definition saw_open (g : goroutine) : bool :=
  match g with
  | R68 _ | C92 => true
  | _ => false
  end.

(** In [Close], past the test and before [close(p.resources)] is done. *)
Definition before_close (g : goroutine) : bool :=
  match g with
  | C92 | C96 => true
  | _ => false
  end.

(** In the loop of [Close]. *)
Definition draining (g : goroutine) : bool :=
  match g with
  | C99 | C100 _ => true
  | _ => false
  end.

(** The panic a goroutine is carrying, if any. *)
Definition panic_of (g : goroutine) : option panicValue :=
  match g with
  | Unwinding e | PanickedOut e => Some e
  | _ => None
  end.

(** What a goroutine at [g] can rely on about the pool. *)
Definition local_inv (g : goroutine) (p : Pool) : Prop :=
  holds g = true ->
  m p = true /\
  (flag_set g = true -> closed p = true) /\
  (saw_open g = true -> closed p = false) /\
  (before_close g = true -> chclosed (resources p) = false) /\
  (draining g = true -> chclosed (resources p) = true).

(** What holds of every configuration a schedule can lead to. *)
Definition inv (cfg : config) : Prop :=
  let p := pool (shared cfg) in
  (chclosed (resources p) = true -> closed p = true) /\
  (forall i, local_inv (goroutines cfg i) p) /\
  (forall i j, holds (goroutines cfg i) = true ->
               holds (goroutines cfg j) = true -> i = j) /\
  (forall i e, panic_of (goroutines cfg i) = Some e -> e = NilDereference).

End Conc.

(** * Vocabulary for whole runs *)

Module Client.
Import Pool Conc.
Open Scope go_scope.

Definition io_Closer_eq_dec (a b : io_Closer) : {a = b} + {a <> b}.
Proof. decide equality; apply Resource_eq_dec. Defined.

(** Number of times [r] sits in the channel. *)
Definition idle (r : Resource) (s : State) : nat :=
  count_occ io_Closer_eq_dec (buf (resources (pool s))) (Some r).

(** What the pool has done with [r] so far: entries in the channel plus calls
    of its [Close]. *)
Definition owned (r : Resource) (s : State) : nat :=
  idle r s + closeCalls r (trace s).

Arguments idle : simpl never.
Arguments owned : simpl never.

(** Number of calls [Release(r)] in a list of calls. *)
Fixpoint releases (r : Resource) (cs : list call) : nat :=
  match cs with
  | [] => 0
  | CallRelease (Some x) :: cs' =>
      (if Resource_eq_dec x r then 1 else 0) + releases r cs'
  | _ :: cs' => releases r cs'
  end.

(** Whether a list of calls has an [Acquire] in it. *)
Fixpoint acquires (cs : list call) : bool :=
  match cs with
  | [] => false
  | CallAcquire :: _ => true
  | _ :: cs' => acquires cs'
  end.

(** A client that releases the values [xs] one after the other. *)
Fixpoint release_all (xs : list io_Closer) : M unit :=
  match xs with
  | [] => ret tt
  | x :: xs' => Release x ;; release_all xs'
  end.

(** A client that calls [Acquire] [n] times and keeps the results. *)
Fixpoint acquire_n (n : nat) : M (list (io_Closer * error)) :=
  match n with
  | O => ret []
  | S n' => a <- Acquire ;; rest <- acquire_n n' ;; ret (a :: rest)
  end.

(** [k] copies of a log line added to the trace, the channel buffer replaced
    by [b]. *)
Definition logged (a b : string) (k : nat) (bf : list io_Closer) (s : State)
  : State :=
  {| pool := {| m := m (pool s);
                resources := {| buf := bf; cap := cap (resources (pool s));
                                chclosed := chclosed (resources (pool s)) |};
                factory := factory (pool s);
                closed := closed (pool s) |};
     trace := trace s ++ repeat (LogPrintln a b) k |}.

(** Room left in the channel. *)
Definition room (s : State) : nat :=
  N.to_nat (cap (resources (pool s))) - List.length (buf (resources (pool s))).

(** In [Acquire], past a receive that reported the channel closed. *)
Definition saw_closed (g : goroutine) : bool :=
  match g with
  | A43 _ false | A44 _ false => true
  | _ => false
  end.

(** Waiting for the mutex. *)
Definition at_Lock (g : goroutine) : bool :=
  match g with
  | R59 _ | C83 => true
  | _ => false
  end.









(** More of what holds of every configuration a schedule can lead to from
    [New fn size]. *)
Definition inv_more (fn : Factory) (size : N) (cfg : config) : Prop :=
  let p := pool (shared cfg) in
  cap (resources p) = size /\
  factory p = fn /\
  (chan_len (resources p) <= cap (resources p))%N /\
  (m p = true -> exists i, holds (goroutines cfg i) = true) /\
  (forall i, saw_closed (goroutines cfg i) = true ->
             chclosed (resources p) = true).

(** Sample schedules: goroutine 0 runs [Release(res1)] to its end; goroutine
    1 runs [Close] to its end while goroutine 0, with [Release(nil)], waits
    for the mutex and then takes four steps. *)
Definition sample_sched_release : list (nat * move) :=
  [(0, Start (CallRelease (Some res1))); (0, Step); (0, Step); (0, Step)].

Definition sample_sched_mixed : list (nat * move) :=
  [(0, Start (CallRelease None)); (1, Start CallClose);
   (1, Step); (1, Step); (1, Step); (1, Step); (1, Step); (1, Step);
   (0, Step); (0, Step); (0, Step); (0, Step)].

End Client.

(** * One call at a time *)

Module PoolFacts.
Import Pool.
Open Scope go_scope.

Ltac open_state s :=
  let mu := fresh "mu" in let b := fresh "b" in let k := fresh "k" in
  let cc := fresh "cc" in let fa := fresh "fa" in let fl := fresh "fl" in
  let tr := fresh "tr" in
  destruct s as [[mu [b k cc] fa fl] tr]; cbn in *.

Ltac run :=
  cbv [Acquire Release Close bind defer ret Lock Unlock get_closed set_closed
       Println call_factory call_Close select_recv select_send close_chan recv
       with_m with_closed with_resources emit chan_len shut_down chan_with_buf];
  cbn [pool trace m resources factory closed buf cap chclosed negb fst snd].

Ltac case_ltb :=
  match goal with
  | |- context [N.ltb ?a ?b] => destruct (N.ltb a b) eqn:?
  end.

(** The loop of [Close] on a closed channel that holds resources only: each
    is closed once, in order, and the channel is left empty. *)
Lemma range_resources_drains :
  forall (rs : list Resource) (fuel : nat) (s : State),
    List.length rs <= fuel ->
    buf (resources (pool s)) = map Some rs ->
    chclosed (resources (pool s)) = true ->
    range_resources fuel s =
      Returned tt
        {| pool := {| m := m (pool s);
                      resources := chan_with_buf [] (resources (pool s));
                      factory := factory (pool s);
                      closed := closed (pool s) |};
           trace := trace s ++ map CloseCall rs |}.
Proof.
  induction rs as [|r rs IH]; intros fuel s Hfuel Hbuf Hcl; open_state s; subst.
  - destruct fuel; run; rewrite app_nil_r; reflexivity.
  - destruct fuel as [|fuel]; [cbn in Hfuel; lia|].
    cbn [range_resources]. run.
    rewrite IH; cbn; try reflexivity; try (cbn in Hfuel; lia).
    rewrite <- app_assoc. reflexivity.
Qed.

(** The loop of [Close] meeting a nil value after the resources [rs]: the
    resources before it are closed, then the call panics and the values
    behind the nil stay in the channel. *)
Lemma range_resources_nil :
  forall (rs : list Resource) (rest : list io_Closer) (fuel : nat) (s : State),
    List.length rs < fuel ->
    buf (resources (pool s)) = map Some rs ++ None :: rest ->
    range_resources fuel s =
      Panicked NilDereference
        {| pool := {| m := m (pool s);
                      resources := chan_with_buf rest (resources (pool s));
                      factory := factory (pool s);
                      closed := closed (pool s) |};
           trace := trace s ++ map CloseCall rs |}.
Proof.
  induction rs as [|r rs IH]; intros rest fuel s Hfuel Hbuf; open_state s; subst;
    (destruct fuel as [|fuel]; [cbn in Hfuel; lia|]).
  - cbn [range_resources]. run. rewrite app_nil_r. reflexivity.
  - cbn [range_resources]. run.
    rewrite (IH rest); cbn; try reflexivity; try (cbn in Hfuel; lia).
    rewrite <- app_assoc. reflexivity.
Qed.

(** Any buffer is a run of resources followed by nothing or by a nil. *)
Lemma buffer_shape :
  forall b : list io_Closer,
    (exists rs, b = map Some rs) \/
    (exists rs rest, b = map Some rs ++ None :: rest).
Proof.
  induction b as [|x b IH].
  - left. exists []. reflexivity.
  - destruct x as [r|].
    + destruct IH as [[rs ->] | [rs [rest ->]]].
      * left. exists (r :: rs). reflexivity.
      * right. exists (r :: rs), rest. reflexivity.
    + right. exists [], b. reflexivity.
Qed.

(** [Close] on an open pool whose buffer holds resources only. *)
Lemma Close_drains :
  forall (s : State) (rs : list Resource),
    m (pool s) = false ->
    closed (pool s) = false ->
    chclosed (resources (pool s)) = false ->
    buf (resources (pool s)) = map Some rs ->
    Close s = Returned tt (shut_down s (map CloseCall rs)).
Proof.
  intros s rs Hm Hc Hch Hb. open_state s. subst. run.
  rewrite (range_resources_drains rs); cbn; try reflexivity.
  rewrite length_map. lia.
Qed.

(** [Close] on a pool that is already closed. *)
Lemma Close_closed :
  forall s : State,
    m (pool s) = false -> closed (pool s) = true -> Close s = Returned tt s.
Proof. intros s Hm Hc. open_state s. subst. reflexivity. Qed.

(** A [Close] that returns leaves the flag set and the mutex free. *)
Lemma Close_returned :
  forall (s s' : State),
    Close s = Returned tt s' ->
    m (pool s) = false /\ m (pool s') = false /\ closed (pool s') = true /\
    (closed (pool s) = true -> s' = s) /\
    (closed (pool s) = false ->
     chclosed (resources (pool s')) = true /\ buf (resources (pool s')) = []).
Proof.
  intros s s' H. open_state s.
  destruct mu; [discriminate H|].
  destruct fl.
  - cbv in H. inversion H; subst. cbn. repeat split; auto; discriminate.
  - destruct cc; [discriminate H|].
    destruct (buffer_shape b) as [[rs ->] | [rs [rest ->]]].
    + rewrite (Close_drains _ rs) in H by reflexivity.
      inversion H; subst. cbn. repeat split; auto; discriminate.
    + revert H. run.
      rewrite (range_resources_nil rs rest); cbn; try reflexivity.
      * discriminate.
      * rewrite length_app, length_map. cbn. lia.
Qed.

(** [Close] on an open pool that meets a nil value in the channel. *)
Lemma Close_nil :
  forall (s : State) (rs : list Resource) (rest : list io_Closer),
    m (pool s) = false ->
    closed (pool s) = false ->
    chclosed (resources (pool s)) = false ->
    buf (resources (pool s)) = map Some rs ++ None :: rest ->
    Close s =
      Panicked NilDereference
        {| pool := {| m := false;
                      resources := {| buf := rest;
                                      cap := cap (resources (pool s));
                                      chclosed := true |};
                      factory := factory (pool s);
                      closed := true |};
           trace := trace s ++ map CloseCall rs |}.
Proof.
  intros s rs rest Hm Hc Hch Hb. open_state s. subst. run.
  rewrite (range_resources_nil rs rest); cbn; try reflexivity.
  rewrite length_app, length_map. cbn. lia.
Qed.

(** The model's loop bound is never met: [Close] always returns, panics on a
    nil value, or waits for the mutex. *)
Lemma Close_never_out_of_fuel :
  forall s : State, Close s <> OutOfFuel.
Proof.
  intros s. open_state s.
  destruct mu; [discriminate|].
  destruct fl; [discriminate|].
  destruct cc; [discriminate|].
  destruct (buffer_shape b) as [[rs ->] | [rs [rest ->]]].
  - rewrite (Close_drains _ rs) by reflexivity. discriminate.
  - rewrite (Close_nil _ rs rest) by reflexivity. discriminate.
Qed.

(** [Release] of a resource on a pool whose flag is set. *)
Lemma Release_on_closed :
  forall (s : State) (r : Resource),
    m (pool s) = false ->
    closed (pool s) = true ->
    Release (Some r) s = Returned tt (emit (CloseCall r) s).
Proof. intros s r Hm Hc. open_state s. subst. reflexivity. Qed.

(** [New] hands out a pool in which flag and channel agree and the mutex is
    free. *)
Lemma New_returns :
  forall (limit : N) (fn : Factory) (size : N) (tr tr' : list event)
         (p : Pool) (e : error),
    New limit fn size tr = (Returns (Some p, e), tr') ->
    p = {| m := false;
           resources := {| buf := []; cap := size; chclosed := false |};
           factory := fn; closed := false |} /\
    e = None /\ tr' = tr /\ (0 < size)%N /\ (size <= limit)%N.
Proof.
  intros limit fn size tr tr' p e H. unfold New, make_chan in H.
  destruct (size <=? 0)%N eqn:Hs; [discriminate H|].
  destruct (size <=? limit)%N eqn:Hl; [|discriminate H].
  inversion H; subst. apply N.leb_gt in Hs. apply N.leb_le in Hl.
  repeat split; auto.
Qed.

Lemma New_consistent :
  forall (limit : N) (fn : Factory) (size : N) (tr tr' : list event)
         (p : Pool) (e : error),
    New limit fn size tr = (Returns (Some p, e), tr') ->
    consistent p /\ m p = false /\ closed p = false /\ (0 < cap (resources p))%N.
Proof.
  intros limit fn size tr tr' p e H.
  destruct (New_returns _ _ _ _ _ _ _ H) as (-> & _ & _ & Hpos & _).
  cbn. repeat split; auto.
Qed.

(** Every call that comes back keeps flag and channel in agreement and the
    mutex free, and never panics for a send on a closed channel or for
    closing the channel twice. *)
Lemma calls_keep_consistent :
  forall (c : call) (s s' : State) (e : option panicValue),
    m (pool s) = false ->
    consistent (pool s) ->
    after c s = Some (s', e) ->
    m (pool s') = false /\ consistent (pool s') /\
    (closed (pool s) = true -> closed (pool s') = true) /\
    (e = None \/ e = Some NilDereference).
Proof.
  unfold consistent.
  intros c s s' e Hm Hcons H. destruct c as [|r|]; cbn in H.
  - open_state s. subst.
    destruct b as [|x b]; [destruct fl|]; cbv in H; inversion H; subst; cbn; auto.
  - open_state s. subst. revert H. run.
    destruct fl.
    + destruct r; intros H; inversion H; subst; cbn; auto.
    + case_ltb; cbn.
      * intros H; inversion H; subst; cbn; auto.
      * destruct r; intros H; inversion H; subst; cbn; auto.
  - open_state s. subst. destruct fl.
    + cbv in H. inversion H; subst; cbn; auto.
    + destruct (buffer_shape b) as [[rs ->] | [rs [rest ->]]].
      * rewrite (Close_drains _ rs) in H by reflexivity.
        inversion H; subst; cbn; auto.
      * rewrite (Close_nil _ rs rest) in H by reflexivity.
        inversion H; subst; cbn; auto.
Qed.

(** ** Counting calls in a trace *)

Lemma closeCalls_app :
  forall (r : Resource) (tr tr' : list event),
    closeCalls r (tr ++ tr') = closeCalls r tr + closeCalls r tr'.
Proof. intros. unfold closeCalls. apply count_occ_app. Qed.

Lemma closeCalls_map :
  forall (r : Resource) (rs : list Resource),
    closeCalls r (map CloseCall rs) = count_occ Resource_eq_dec rs r.
Proof.
  intros r. unfold closeCalls. induction rs as [|x rs IH]; [reflexivity|].
  change (map CloseCall (x :: rs)) with (CloseCall x :: map CloseCall rs).
  destruct (Resource_eq_dec x r) as [E|E].
  - subst x. rewrite !count_occ_cons_eq by reflexivity. congruence.
  - rewrite !count_occ_cons_neq by congruence. exact IH.
Qed.

Lemma closeCalls_log :
  forall (r : Resource) (a b : string), closeCalls r [LogPrintln a b] = 0.
Proof.
  intros. unfold closeCalls. rewrite count_occ_cons_neq by discriminate.
  reflexivity.
Qed.

Lemma closeCalls_self :
  forall r : Resource, closeCalls r [CloseCall r] = 1.
Proof.
  intros. unfold closeCalls. rewrite count_occ_cons_eq by reflexivity.
  reflexivity.
Qed.

Lemma factoryCalls_app :
  forall tr tr' : list event,
    factoryCalls (tr ++ tr') = factoryCalls tr + factoryCalls tr'.
Proof. intros. unfold factoryCalls. apply count_occ_app. Qed.

(** ** More on single calls *)

(** [Acquire] returns in every state whatsoever: it never waits and never
    panics. *)
Lemma Acquire_total :
  forall s : State, exists res s', Acquire s = Returned res s'.
Proof.
  intros s. open_state s.
  destruct b as [|x b]; [destruct cc|]; eexists; eexists; reflexivity.
Qed.

(** The reuse path: with a value in the channel, open or closed, [Acquire]
    takes the oldest one. *)
Lemma Acquire_nonempty :
  forall (s : State) (x : io_Closer) (rest : list io_Closer),
    buf (resources (pool s)) = x :: rest ->
    Acquire s =
      Returned (x, None)
        (emit (LogPrintln "Acquire:" "Shared Resource")
           (with_resources (chan_with_buf rest (resources (pool s))) s)).
Proof. intros s x rest H. open_state s. subst. reflexivity. Qed.

(** [Release] on an open pool, in full: the value goes to the back of the
    channel when there is room; otherwise a resource is closed and dropped,
    and a nil value makes the call panic. *)
Lemma Release_open :
  forall (s : State) (x : io_Closer),
    m (pool s) = false ->
    closed (pool s) = false ->
    consistent (pool s) ->
    Release x s =
      if (chan_len (resources (pool s)) <? cap (resources (pool s)))%N then
        Returned tt
          (emit (LogPrintln "Release:" "In Queue")
             (with_resources
                (chan_with_buf (buf (resources (pool s)) ++ [x])
                               (resources (pool s))) s))
      else
        match x with
        | Some r =>
            Returned tt
              (emit (CloseCall r) (emit (LogPrintln "Release:" "Closing") s))
        | None =>
            Panicked NilDereference (emit (LogPrintln "Release:" "Closing") s)
        end.
Proof.
  intros s x Hm Hc Hcons. unfold consistent in Hcons. rewrite Hc in Hcons.
  open_state s. subst. run.
  case_ltb; cbn; [reflexivity|]. destruct x; reflexivity.
Qed.

End PoolFacts.

Module ConcFacts.
Import Pool Conc PoolFacts.
Open Scope go_scope.

Ltac open_pool s :=
  let mu := fresh "mu" in let b := fresh "b" in let k := fresh "k" in
  let cc := fresh "cc" in let fa := fresh "fa" in let fl := fresh "fl" in
  let tr := fresh "tr" in
  destruct s as [[mu [b k cc] fa fl] tr].

(** What one statement of a goroutine does to the facts the others rely on.
    A goroutine outside the critical section leaves the flag and the channel's
    closed mark alone and never frees the mutex; a goroutine enters the
    critical section only through a free mutex. *)
Lemma gstep_inv :
  forall (g g' : goroutine) (s s' : State),
    gstep g s = Some (g', s') ->
    local_inv g (pool s) ->
    (chclosed (resources (pool s)) = true -> closed (pool s) = true) ->
    (forall e, panic_of g = Some e -> e = NilDereference) ->
    local_inv g' (pool s') /\
    (chclosed (resources (pool s')) = true -> closed (pool s') = true) /\
    (forall e, panic_of g' = Some e -> e = NilDereference) /\
    (holds g' = true -> holds g = true \/ m (pool s) = false) /\
    (holds g = false ->
     closed (pool s') = closed (pool s) /\
     chclosed (resources (pool s')) = chclosed (resources (pool s)) /\
     (m (pool s) = true -> m (pool s') = true)).
Proof.
  intros g g' s s' Hstep Hloc Hglob Hpan.
  open_pool s. unfold local_inv in *.
  destruct g; cbn in Hstep, Hloc, Hglob, Hpan; try discriminate Hstep;
    try (specialize (Hloc eq_refl); destruct Hloc as (Hm & Hfs & Hso & Hbc & Hdr);
         cbn in Hm; subst mu);
    cbv [atomic select_recv recv select_send close_chan call_Close call_factory
         Lock Unlock get_closed set_closed Println with_m with_closed
         with_resources emit chan_len] in Hstep;
    cbn [pool trace m resources factory closed buf cap chclosed] in Hstep;
    repeat match type of Hstep with
           | context [match ?x with _ => _ end] => is_var x; destruct x
           | context [N.ltb ?a ?b] => destruct (N.ltb a b)
           end;
    try discriminate Hstep;
    inversion Hstep; subst; clear Hstep;
    try match goal with
        | |- context [negb ?x] => destruct x
        end; cbn in *;
    repeat split; intros; try discriminate; try congruence; auto;
    try (match goal with
         | H : forall e, Some ?x = Some e -> _ |- _ => specialize (H x eq_refl)
         end; congruence);
    repeat match goal with
           | H : ?a = ?a -> _ |- _ => specialize (H eq_refl)
           end;
    try congruence;
    try match goal with
        | |- ?c = false => destruct c; [exfalso|reflexivity]
        end;
    repeat match goal with
           | H : ?a = ?a -> _ |- _ => specialize (H eq_refl)
           end;
    congruence.
Qed.

(** The facts a goroutine relies on mention the mutex, the flag and the
    channel's closed mark only. *)
Lemma local_inv_frame :
  forall (g : goroutine) (p p' : Pool),
    local_inv g p ->
    closed p' = closed p ->
    chclosed (resources p') = chclosed (resources p) ->
    (m p = true -> m p' = true) ->
    local_inv g p'.
Proof.
  unfold local_inv. intros g p p' H Hc Hch Hm Hh.
  destruct (H Hh) as (H1 & H2 & H3 & H4 & H5).
  rewrite Hc, Hch. auto.
Qed.

Lemma local_inv_outside :
  forall (g : goroutine) (p : Pool), holds g = false -> local_inv g p.
Proof. unfold local_inv. intros g p H H'. congruence. Qed.

Lemma upd_same :
  forall gs i g, upd gs i g i = g.
Proof. intros. unfold upd. rewrite Nat.eqb_refl. reflexivity. Qed.

Lemma upd_other :
  forall gs i g j, j <> i -> upd gs i g j = gs j.
Proof.
  intros gs i g j H. unfold upd.
  destruct (Nat.eqb_spec j i); [contradiction | reflexivity].
Qed.

Lemma entry_outside_cs :
  forall c : call, holds (entry c) = false /\ panic_of (entry c) = None.
Proof. destruct c; split; reflexivity. Qed.

(** Every move of the scheduler keeps the invariant. *)
Lemma exec_inv :
  forall (cfg : config) (im : nat * move), inv cfg -> inv (exec cfg im).
Proof.
  intros [s gs] [i mv] Hinv.
  pose proof Hinv as (Hglob & Hloc & Huniq & Hpan). cbn in *.
  destruct mv as [c|]; cbn.
  - destruct (outside (gs i)) eqn:Hout; [|exact Hinv].
    destruct (entry_outside_cs c) as [Hh Hp].
    unfold inv; cbn; split; [|split; [|split]]; auto.
    + intros j. destruct (Nat.eq_dec j i) as [->|Hne].
      * rewrite upd_same. apply local_inv_outside, Hh.
      * rewrite upd_other by assumption. apply Hloc.
    + intros j k. destruct (Nat.eq_dec j i) as [->|Hj].
      { rewrite upd_same. congruence. }
      destruct (Nat.eq_dec k i) as [->|Hk].
      { rewrite upd_same. congruence. }
      rewrite !upd_other by assumption. apply Huniq.
    + intros j e. destruct (Nat.eq_dec j i) as [->|Hne].
      * rewrite upd_same. congruence.
      * rewrite upd_other by assumption. apply Hpan.
  - destruct (gstep (gs i) s) as [[g' s']|] eqn:Hstep; [|exact Hinv].
    destruct (gstep_inv _ _ _ _ Hstep (Hloc i) Hglob (Hpan i))
      as (Hloc' & Hglob' & Hpan' & Henter & Hframe).
    unfold inv; cbn; split; [|split; [|split]]; auto.
    + intros j. destruct (Nat.eq_dec j i) as [->|Hne].
      * rewrite upd_same. exact Hloc'.
      * rewrite upd_other by assumption.
        destruct (holds (gs j)) eqn:Hj; [|apply local_inv_outside, Hj].
        destruct (holds (gs i)) eqn:Hi.
        { exfalso. apply Hne. apply Huniq; assumption. }
        destruct (Hframe eq_refl) as (Hc & Hch & Hm).
        apply local_inv_frame with (p := pool s); auto.
    + intros j k. destruct (Nat.eq_dec j i) as [->|Hj];
        destruct (Nat.eq_dec k i) as [->|Hk]; auto;
        rewrite ?upd_same, ?upd_other by assumption.
      * intros Hi' Hk'. exfalso.
        destruct (Henter Hi') as [Hi|Hfree].
        -- apply Hk. apply Huniq; assumption.
        -- destruct (Hloc k Hk') as [Hm _]. congruence.
      * intros Hj' Hi'. exfalso.
        destruct (Henter Hi') as [Hi|Hfree].
        -- apply Hj. apply Huniq; assumption.
        -- destruct (Hloc j Hj') as [Hm _]. congruence.
      * apply Huniq.
    + intros j e. destruct (Nat.eq_dec j i) as [->|Hne].
      * rewrite upd_same. apply Hpan'.
      * rewrite upd_other by assumption. apply Hpan.
Qed.

(** Every schedule keeps the invariant. *)
Lemma run_inv :
  forall (sched : list (nat * move)) (cfg : config),
    inv cfg -> inv (run sched cfg).
Proof.
  unfold run. induction sched as [|im sched IH]; intros cfg H; cbn.
  - exact H.
  - apply IH, exec_inv, H.
Qed.

(** A pool whose channel is open starts out with the invariant. *)
Lemma init_inv :
  forall p : Pool, chclosed (resources p) = false -> inv (init p).
Proof.
  intros p H. unfold inv; cbn. split; [|split; [|split]].
  - congruence.
  - intros i. apply local_inv_outside. reflexivity.
  - discriminate.
  - discriminate.
Qed.

(** The invariant holds in every configuration that a schedule reaches from
    a pool made by [New]. *)
Lemma reachable_inv :
  forall (limit : N) (fn : Factory) (size : N) (tr tr' : list event)
         (p : Pool) (e : error) (sched : list (nat * move)),
    New limit fn size tr = (Returns (Some p, e), tr') ->
    inv (run sched (init p)).
Proof.
  intros limit fn size tr tr' p e sched H.
  apply run_inv, init_inv.
  destruct (New_returns _ _ _ _ _ _ _ H) as (-> & _).
  reflexivity.
Qed.

(** ** The statements of a call, run alone, make up the call *)

Lemma reaches_refl :
  forall g s, reaches g s g s.
Proof. intros. exists 0. reflexivity. Qed.

Lemma reaches_step :
  forall g s g1 s1 g' s',
    gstep g s = Some (g1, s1) -> reaches g1 s1 g' s' -> reaches g s g' s'.
Proof.
  intros g s g1 s1 g' s' H [n Hn]. exists (S n). cbn. rewrite H. exact Hn.
Qed.

Ltac one_step :=
  eapply reaches_step; [reflexivity|]; cbn.

(** [Acquire] is the three statements a goroutine runs from line 40. *)
Lemma solo_Acquire :
  forall (s s' : State) (res : io_Closer * error),
    Acquire s = Returned res s' ->
    reaches A40 s (AcquireReturned (fst res) (snd res)) s'.
Proof.
  intros s s' res H. open_pool s.
  destruct b as [|x b]; [destruct cc|]; cbv in H; inversion H; subst;
    exists 3; reflexivity.
Qed.

(** [Release] with the mutex free is the run of a goroutine from line 59. *)
Lemma solo_Release :
  forall (r : io_Closer) (s : State),
    m (pool s) = false ->
    match Release r s with
    | Returned _ s' => reaches (R59 r) s ReleaseReturned s'
    | Panicked e s' => reaches (R59 r) s (PanickedOut e) s'
    | Blocked _ | OutOfFuel => False
    end.
Proof.
  intros r s Hm. open_pool s. cbn in Hm. subst mu.
  cbv [Release bind defer ret Lock Unlock get_closed Println call_Close
       select_send with_m with_resources emit chan_len];
    cbn [pool trace m resources factory closed buf cap chclosed].
  destruct fl; [destruct r|destruct cc]; cbn.
  - exists 4. reflexivity.
  - exists 4. reflexivity.
  - exists 4. reflexivity.
  - destruct (N.of_nat (List.length b) <? k)%N eqn:E; cbn.
    + exists 5. cbn. cbv [atomic select_send chan_len]. cbn. rewrite E. reflexivity.
    + destruct r; cbn.
      * exists 6. cbn. cbv [atomic select_send chan_len]. cbn. rewrite E. reflexivity.
      * exists 6. cbn. cbv [atomic select_send chan_len]. cbn. rewrite E. reflexivity.
Qed.

(** The loop of [Close] is the run of a goroutine from line 99 to the
    deferred [Unlock]. *)
Lemma solo_range_resources :
  forall (fuel : nat) (s : State),
    match range_resources fuel s with
    | Returned _ s' => reaches C99 s C84 s'
    | Panicked e s' => reaches C99 s (Unwinding e) s'
    | Blocked s' => reaches C99 s C99 s' /\ gstep C99 s' = None
    | OutOfFuel => True
    end.
Proof.
  induction fuel as [|fuel IH]; intros s; open_pool s;
    cbn [range_resources]; cbv [bind recv ret with_resources];
    cbn [pool trace m resources factory closed buf cap chclosed];
    (destruct b as [|x b]; [destruct cc|]); cbn;
    try (exists 1; reflexivity);
    try (split; [apply reaches_refl | reflexivity]); try exact I.
  destruct x as [r|]; cbn.
  - match goal with
    | |- context [range_resources fuel ?t] => specialize (IH t)
    end.
    destruct (range_resources fuel _) as [a s1|e s1|s1|]; auto.
    + one_step. one_step. exact IH.
    + one_step. one_step. exact IH.
    + destruct IH as [IH Hstuck]. split; [|exact Hstuck].
      one_step. one_step. exact IH.
  - exists 2. reflexivity.
Qed.

Lemma reaches_trans :
  forall g s g1 s1 g2 s2,
    reaches g s g1 s1 -> reaches g1 s1 g2 s2 -> reaches g s g2 s2.
Proof.
  intros g s g1 s1 g2 s2 [n Hn]. revert g s Hn.
  induction n as [|n IH]; intros g s Hn H2; cbn in Hn.
  - inversion Hn; subst. exact H2.
  - destruct (gstep g s) as [[g' s']|] eqn:E.
    + eapply reaches_step; [exact E|]. apply IH; assumption.
    + inversion Hn; subst. exact H2.
Qed.

(** [Close] with the mutex free is the run of a goroutine from line 83. *)
Lemma solo_Close :
  forall s : State,
    m (pool s) = false ->
    match Close s with
    | Returned _ s' => reaches C83 s CloseReturned s'
    | Panicked e s' => reaches C83 s (PanickedOut e) s'
    | Blocked _ | OutOfFuel => False
    end.
Proof.
  intros s Hm. open_pool s. cbn in Hm. subst mu.
  destruct fl; [exists 3; reflexivity|].
  destruct cc; [exists 5; reflexivity|].
  set (t := {| pool := {| m := true;
                          resources := {| buf := b; cap := k; chclosed := true |};
                          factory := fa; closed := true |};
               trace := tr |}).
  pose proof (solo_range_resources (List.length b) t) as Hloop.
  destruct (PoolFacts.buffer_shape b) as [[rs Hb] | [rs [rest Hb]]].
  - rewrite (PoolFacts.Close_drains _ rs) by (cbn; auto).
    rewrite (PoolFacts.range_resources_drains rs) in Hloop
      by (subst b; cbn; rewrite ?length_map; auto).
    do 4 one_step. eapply reaches_trans; [exact Hloop|].
    exists 1. reflexivity.
  - rewrite (PoolFacts.Close_nil _ rs rest) by (cbn; auto).
    rewrite (PoolFacts.range_resources_nil rs rest) in Hloop
      by (subst b; cbn; rewrite ?length_app, ?length_map; cbn; auto; lia).
    do 4 one_step. eapply reaches_trans; [exact Hloop|].
    exists 1. reflexivity.
Qed.

(** Left alone, a goroutine keeps what it relies on. *)
Lemma solo_inv :
  forall (n : nat) (g : goroutine) (s : State),
    local_inv g (pool s) ->
    (chclosed (resources (pool s)) = true -> closed (pool s) = true) ->
    (forall e, panic_of g = Some e -> e = NilDereference) ->
    local_inv (fst (solo n g s)) (pool (snd (solo n g s))) /\
    (forall e, panic_of (fst (solo n g s)) = Some e -> e = NilDereference).
Proof.
  induction n as [|n IH]; intros g s Hloc Hglob Hpan; cbn; [auto|].
  destruct (gstep g s) as [[g' s']|] eqn:E; cbn; [|auto].
  destruct (gstep_inv _ _ _ _ E Hloc Hglob Hpan) as (H1 & H2 & H3 & _).
  apply IH; assumption.
Qed.

(** With the mutex free every call comes back. *)
Lemma after_total :
  forall (c : call) (s : State),
    m (pool s) = false -> exists s' e, after c s = Some (s', e).
Proof.
  intros c s Hm. destruct c as [|r|]; cbn.
  - destruct (Acquire_total s) as (res & s' & ->). eauto.
  - pose proof (solo_Release r s Hm) as H.
    destruct (Release r s); eauto; contradiction.
  - pose proof (solo_Close s Hm) as H.
    destruct (Close s); eauto; contradiction.
Qed.

(** A client making calls one after the other never sees a call hang, and the
    only panic it can meet is a method call on a nil resource. *)
Lemma replay_consistent :
  forall (cs : list call) (s : State),
    m (pool s) = false ->
    consistent (pool s) ->
    exists s' es,
      replay cs s = Some (s', es) /\
      m (pool s') = false /\ consistent (pool s') /\
      (closed (pool s) = true -> closed (pool s') = true) /\
      Forall (fun e => e = NilDereference) es.
Proof.
  induction cs as [|c cs IH]; intros s Hm Hcons; cbn.
  - exists s, []. auto.
  - destruct (after_total c s Hm) as (s1 & e & Hafter). rewrite Hafter.
    destruct (calls_keep_consistent c s s1 e Hm Hcons Hafter)
      as (Hm1 & Hcons1 & Hmono & He).
    destruct (IH s1 Hm1 Hcons1) as (s' & es & -> & Hm' & Hcons' & Hmono' & Hes).
    eexists. eexists. split; [reflexivity|].
    repeat split; auto.
    destruct He as [->| ->]; auto.
Qed.

Lemma solo_stuck :
  forall (n : nat) (g : goroutine) (s : State),
    gstep g s = None -> solo n g s = (g, s).
Proof. intros n g s H. destruct n; cbn; [|rewrite H]; reflexivity. Qed.

(** A schedule that lets goroutine [i] alone take [n] steps is its solo
    run; the other goroutines stay where they are. *)
Lemma run_solo :
  forall (n i : nat) (cfg : config),
    let cfg' := run (repeat (i, Step) n) cfg in
    shared cfg' = snd (solo n (goroutines cfg i) (shared cfg)) /\
    goroutines cfg' i = fst (solo n (goroutines cfg i) (shared cfg)) /\
    forall j, j <> i -> goroutines cfg' j = goroutines cfg j.
Proof.
  induction n as [|n IH]; intros i cfg; cbn.
  - auto.
  - destruct cfg as [s gs]. cbn.
    destruct (gstep (gs i) s) as [[g' s']|] eqn:E.
    + specialize (IH i {| shared := s'; goroutines := upd gs i g' |}).
      cbn in IH. rewrite upd_same in IH.
      destruct IH as (H1 & H2 & H3). repeat split; auto.
      intros j Hj. rewrite H3 by assumption. apply upd_other, Hj.
    + specialize (IH i {| shared := s; goroutines := gs |}). cbn in IH.
      rewrite (solo_stuck n _ _ E) in IH. exact IH.
Qed.

(** ** Two races the lock does not exclude *)

(** [Acquire] takes no lock.  A goroutine that calls it while [Close] stands
    between closing the channel and draining it gets the oldest idle
    resource, and [Close] drains what is left: that resource is handed out by
    a pool whose flag is set, and it is not closed by this [Close]. *)
Example Acquire_during_drain :
  let cfg :=
    run [(0, Start CallClose); (0, Step); (0, Step); (0, Step); (0, Step);
         (1, Start CallAcquire); (1, Step); (1, Step); (1, Step);
         (0, Step); (0, Step); (0, Step); (0, Step)]
        (init (pool (sample_pool [Some res1; Some res2]))) in
  goroutines cfg 0 = CloseReturned /\
  goroutines cfg 1 = AcquireReturned (Some res1) None /\
  trace (shared cfg) =
    [LogPrintln "Acquire:" "Shared Resource"; CloseCall res2] /\
  pool (shared cfg) = pool (sample_closed []).
Proof. repeat split. Qed.

(** A goroutine that calls [Acquire] after [Close] has set the flag and
    before it has closed the channel finds the channel open and empty and
    gets a new resource from the factory.  When it releases that resource
    the flag is set and the resource is closed. *)
Example Acquire_between_flag_and_close :
  let made := {| rid := 100; closeResult := None |} in
  let cfg :=
    run [(0, Start CallClose); (0, Step); (0, Step); (0, Step);
         (1, Start CallAcquire); (1, Step); (1, Step); (1, Step)]
        (init (pool (sample_pool []))) in
  let cfg' :=
    run [(0, Step); (0, Step); (0, Step);
         (1, Start (CallRelease (Some made)));
         (1, Step); (1, Step); (1, Step); (1, Step)] cfg in
  goroutines cfg 0 = C96 /\
  closed (pool (shared cfg)) = true /\
  goroutines cfg 1 = AcquireReturned (Some made) None /\
  goroutines cfg' 0 = CloseReturned /\
  goroutines cfg' 1 = ReleaseReturned /\
  trace (shared cfg') =
    [LogPrintln "Acquire:" "New Resource"; FactoryCall; CloseCall made] /\
  pool (shared cfg') = pool (sample_closed []).
Proof. repeat split. Qed.

End ConcFacts.

(** * The properties of the pool *)

Import Pool Conc PoolFacts ConcFacts.
Open Scope go_scope.

(** A [Close] that no other goroutine interferes with, on a pool that is not
    yet closed and whose channel holds the resources [rs]: it returns with
    the flag set, the channel closed and empty, and with one [Close] call per
    buffered entry added to the trace, so a resource that was idle once has
    been closed exactly once.  Run statement by statement the call ends in
    the same state, and whenever it stands in the loop the channel is already
    closed and the flag set. *)
Theorem Close_shuts_down_and_drains :
  forall (s : State) (rs : list Resource) (r : Resource) (n : nat),
    m (pool s) = false ->
    closed (pool s) = false ->
    consistent (pool s) ->
    buf (resources (pool s)) = map Some rs ->
    let s' := shut_down s (map CloseCall rs) in
    Close s = Returned tt s' /\
    closed (pool s') = true /\
    chclosed (resources (pool s')) = true /\
    chan_len (resources (pool s')) = 0%N /\
    trace s' = trace s ++ map CloseCall rs /\
    closeCalls r (trace s') =
      closeCalls r (trace s) + count_occ Resource_eq_dec rs r /\
    reaches C83 s CloseReturned s' /\
    (if draining (fst (solo n C83 s))
     then closed (pool (snd (solo n C83 s))) = true /\
          chclosed (resources (pool (snd (solo n C83 s)))) = true
     else True).
Proof.
  intros s rs r n Hm Hc Hcons Hb s'.
  unfold consistent in Hcons. rewrite Hc in Hcons.
  pose proof (Close_drains s rs Hm Hc Hcons Hb) as HClose.
  split; [exact HClose|].
  repeat split; try reflexivity.
  - subst s'. unfold shut_down. cbn [trace].
    rewrite closeCalls_app, closeCalls_map. reflexivity.
  - pose proof (solo_Close s Hm) as H. rewrite HClose in H. exact H.
  - destruct (solo_inv n C83 s) as [Hloc _].
    + apply local_inv_outside. reflexivity.
    + congruence.
    + discriminate.
    + destruct (draining (fst (solo n C83 s))) eqn:Hd; [|exact I].
      assert (Hh : holds (fst (solo n C83 s)) = true)
        by (destruct (fst (solo n C83 s)); cbn in *; congruence).
      destruct (Hloc Hh) as (_ & Hfs & _ & _ & Hdr).
      split; [apply Hfs | apply Hdr; exact Hd].
      destruct (fst (solo n C83 s)); cbn in *; congruence.
Qed.

Lemma Close_shuts_down_and_drains_witness :
  m (pool (sample_pool [Some res1; Some res2])) = false /\
  closed (pool (sample_pool [Some res1; Some res2])) = false /\
  consistent (pool (sample_pool [Some res1; Some res2])) /\
  buf (resources (pool (sample_pool [Some res1; Some res2])))
    = map Some [res1; res2] /\
  Close (sample_pool [Some res1; Some res2])
    = Returned tt (sample_closed [CloseCall res1; CloseCall res2]).
Proof.
  refine (conj eq_refl (conj eq_refl (conj eq_refl (conj eq_refl _)))).
  exact (proj1 (Close_shuts_down_and_drains
                  (sample_pool [Some res1; Some res2]) [res1; res2] res1 4
                  eq_refl eq_refl eq_refl eq_refl)).
Defined.

(** C2. Once [Close] has come back on a pool and the channel is empty,
    [Acquire] returns nil and [ErrPoolClosed]; it logs one line and does not
    call the factory.  The same pool with the channel still open takes the
    other branch of the [select]: it calls the factory and returns the
    factory's pair. *)
Theorem Acquire_after_Close :
  forall s0 s : State,
    consistent (pool s0) ->
    Close s0 = Returned tt s ->
    buf (resources (pool s)) = [] ->
    let reopened :=
      with_resources {| buf := []; cap := cap (resources (pool s));
                        chclosed := false |} s in
    Acquire s =
      Returned (None, ErrPoolClosed)
        (emit (LogPrintln "Acquire:" "Shared Resource") s) /\
    factoryCalls (trace (emit (LogPrintln "Acquire:" "Shared Resource") s))
      = factoryCalls (trace s) /\
    select_recv s = Returned (Some (None, false)) s /\
    select_recv reopened = Returned None reopened /\
    Acquire reopened =
      Returned
        (factory (pool s) (trace s ++ [LogPrintln "Acquire:" "New Resource"]))
        (emit FactoryCall (emit (LogPrintln "Acquire:" "New Resource") reopened)).
Proof.
  intros s0 s Hcons HClose Hb reopened.
  destruct (Close_returned _ _ HClose) as (_ & Hm & Hc & Hsame & Hnew).
  assert (Hch : chclosed (resources (pool s)) = true).
  { destruct (closed (pool s0)) eqn:E.
    - rewrite (Hsame eq_refl). unfold consistent in Hcons. congruence.
    - apply Hnew. reflexivity. }
  subst reopened. open_state s. subst.
  repeat split.
  rewrite factoryCalls_app. unfold factoryCalls at 2. cbn. lia.
Qed.

Lemma Acquire_after_Close_witness :
  consistent (pool (sample_pool [Some res1; Some res2])) /\
  Close (sample_pool [Some res1; Some res2])
    = Returned tt (sample_closed [CloseCall res1; CloseCall res2]) /\
  buf (resources (pool (sample_closed [CloseCall res1; CloseCall res2]))) = [] /\
  Acquire (sample_closed [CloseCall res1; CloseCall res2])
    = Returned (None, ErrPoolClosed)
        (sample_closed [CloseCall res1; CloseCall res2;
                        LogPrintln "Acquire:" "Shared Resource"]).
Proof.
  refine (conj eq_refl (conj eq_refl (conj eq_refl _))).
  exact (proj1 (Acquire_after_Close
                  (sample_pool [Some res1; Some res2])
                  (sample_closed [CloseCall res1; CloseCall res2])
                  eq_refl eq_refl eq_refl)).
Defined.

(** C3. On an open pool [Acquire] with a non-empty channel takes the oldest
    buffered value out and returns it with a nil error; with an empty channel
    it calls the factory, once, and returns the factory's pair as it is.  In
    both cases it returns: it does not wait. *)
Theorem Acquire_open :
  forall s : State,
    closed (pool s) = false ->
    consistent (pool s) ->
    Acquire s =
      match buf (resources (pool s)) with
      | x :: rest =>
          Returned (x, None)
            (emit (LogPrintln "Acquire:" "Shared Resource")
               (with_resources (chan_with_buf rest (resources (pool s))) s))
      | [] =>
          Returned
            (factory (pool s)
               (trace s ++ [LogPrintln "Acquire:" "New Resource"]))
            (emit FactoryCall
               (emit (LogPrintln "Acquire:" "New Resource") s))
      end /\
    (exists res s', Acquire s = Returned res s') /\
    factoryCalls
      (trace (emit FactoryCall (emit (LogPrintln "Acquire:" "New Resource") s)))
      = factoryCalls (trace s) + 1.
Proof.
  intros s Hc Hcons. unfold consistent in Hcons. rewrite Hc in Hcons.
  split; [|split].
  - open_state s. subst. destruct b; reflexivity.
  - apply Acquire_total.
  - cbn [trace emit]. rewrite !factoryCalls_app.
    unfold factoryCalls at 2 3. cbn. lia.
Qed.

Lemma Acquire_open_witness :
  closed (pool (sample_pool [Some res1; Some res2])) = false /\
  consistent (pool (sample_pool [Some res1; Some res2])) /\
  Acquire (sample_pool [Some res1; Some res2])
    = Returned (Some res1, None)
        (emit (LogPrintln "Acquire:" "Shared Resource")
           (sample_pool [Some res2])).
Proof.
  refine (conj eq_refl (conj eq_refl _)).
  exact (proj1 (Acquire_open (sample_pool [Some res1; Some res2])
                  eq_refl eq_refl)).
Defined.

(** C4. [Release] of a resource on a pool whose flag is set calls the
    resource's [Close], once, and returns; the pool, its channel included, is
    as before. *)
Theorem Release_closed :
  forall (s : State) (r : Resource),
    m (pool s) = false ->
    closed (pool s) = true ->
    let s' := emit (CloseCall r) s in
    Release (Some r) s = Returned tt s' /\
    trace s' = trace s ++ [CloseCall r] /\
    closeCalls r (trace s') = closeCalls r (trace s) + 1 /\
    pool s' = pool s /\
    buf (resources (pool s')) = buf (resources (pool s)).
Proof.
  intros s r Hm Hc s'. subst s'.
  split; [apply Release_on_closed; assumption|].
  repeat split.
  cbn [trace emit]. rewrite closeCalls_app, closeCalls_self. reflexivity.
Qed.

Lemma Release_closed_witness :
  m (pool (sample_closed [])) = false /\
  closed (pool (sample_closed [])) = true /\
  Release (Some res3) (sample_closed [])
    = Returned tt (sample_closed [CloseCall res3]).
Proof.
  refine (conj eq_refl (conj eq_refl _)).
  exact (proj1 (Release_closed (sample_closed []) res3 eq_refl eq_refl)).
Defined.

(** C5. [Release] of a resource on an open pool: with room in the channel
    the resource is put at the back of it; with the channel at capacity the
    resource's [Close] is called, once, and the channel keeps its
    capacity-many values.  With capacity 2, three releases in a row on a
    fresh pool leave the first two in the channel and close the third exactly
    once; the fresh pool is what [New] returns for size 2 (unless [make]
    cannot make a channel of size 2). *)
Theorem Release_enqueues_or_closes :
  forall (s : State) (r r1 r2 r3 : Resource) (fn : Factory) (limit : N),
    m (pool s) = false ->
    closed (pool s) = false ->
    consistent (pool s) ->
    let c := resources (pool s) in
    let queued :=
      emit (LogPrintln "Release:" "In Queue")
        (with_resources (chan_with_buf (buf c ++ [Some r]) c) s) in
    let dropped :=
      emit (CloseCall r) (emit (LogPrintln "Release:" "Closing") s) in
    let fresh :=
      {| m := false;
         resources := {| buf := []; cap := 2; chclosed := false |};
         factory := fn;
         closed := false |} in
    Release (Some r) s =
      Returned tt (if (chan_len c <? cap c)%N then queued else dropped) /\
    chan_len (resources (pool queued)) = (chan_len c + 1)%N /\
    closeCalls r (trace queued) = closeCalls r (trace s) /\
    resources (pool dropped) = c /\
    closeCalls r (trace dropped) = closeCalls r (trace s) + 1 /\
    (Release (Some r1) ;; Release (Some r2) ;; Release (Some r3))
      {| pool := fresh; trace := [] |} =
    Returned tt
      {| pool := {| m := false;
                    resources := {| buf := [Some r1; Some r2]; cap := 2;
                                    chclosed := false |};
                    factory := fn;
                    closed := false |};
         trace := [LogPrintln "Release:" "In Queue";
                   LogPrintln "Release:" "In Queue";
                   LogPrintln "Release:" "Closing";
                   CloseCall r3] |} /\
    closeCalls r3 [LogPrintln "Release:" "In Queue";
                   LogPrintln "Release:" "In Queue";
                   LogPrintln "Release:" "Closing";
                   CloseCall r3] = 1 /\
    match New limit fn 2 [] with
    | (Returns (Some p, e), tr) => p = fresh /\ e = None /\ tr = []
    | (Panics _, _) => (limit < 2)%N
    | _ => False
    end.
Proof.
  intros s r r1 r2 r3 fn limit Hm Hc Hcons c queued dropped fresh.
  split; [|split; [|split; [|split; [|split; [|split; [|split]]]]]].
  - rewrite (Release_open s (Some r) Hm Hc Hcons). fold c.
    destruct (chan_len c <? cap c)%N; reflexivity.
  - subst queued c. unfold chan_len. cbn. rewrite length_app. cbn. lia.
  - subst queued. cbn [trace emit with_resources pool].
    rewrite closeCalls_app, closeCalls_log. lia.
  - reflexivity.
  - subst dropped. cbn [trace emit].
    rewrite !closeCalls_app, closeCalls_log, closeCalls_self. lia.
  - reflexivity.
  - change [LogPrintln "Release:" "In Queue"; LogPrintln "Release:" "In Queue";
            LogPrintln "Release:" "Closing"; CloseCall r3]
      with ([LogPrintln "Release:" "In Queue"] ++
            [LogPrintln "Release:" "In Queue"] ++
            [LogPrintln "Release:" "Closing"] ++ [CloseCall r3]).
    rewrite !closeCalls_app, !closeCalls_log, closeCalls_self. reflexivity.
  - unfold New, make_chan. cbn [N.leb N.compare].
    destruct (2 <=? limit)%N eqn:Hlim; [|apply N.leb_gt, Hlim].
    repeat split.
Qed.

Lemma Release_enqueues_or_closes_witness :
  m (pool (sample_pool [Some res1; Some res2])) = false /\
  closed (pool (sample_pool [Some res1; Some res2])) = false /\
  consistent (pool (sample_pool [Some res1; Some res2])) /\
  Release (Some res3) (sample_pool [Some res1; Some res2])
    = Returned tt
        (emit (CloseCall res3)
           (emit (LogPrintln "Release:" "Closing")
              (sample_pool [Some res1; Some res2]))).
Proof.
  refine (conj eq_refl (conj eq_refl (conj eq_refl _))).
  exact (proj1 (Release_enqueues_or_closes
                  (sample_pool [Some res1; Some res2]) res3 res1 res2 res3
                  sample_factory sample_limit eq_refl eq_refl eq_refl)).
Defined.

(** C6. [Close] on a pool whose flag is already set returns at once and
    changes nothing: no call to any resource's [Close] is added, the flag
    stays set and the channel is as it was, so empty if it was empty.  Hence a
    second [Close] after a first that returned is a no-op. *)
Theorem Close_idempotent :
  forall (s : State) (r : Resource),
    m (pool s) = false ->
    closed (pool s) = true ->
    Close s = Returned tt s /\
    (Close ;; Close) s = Close s /\
    reaches C83 s CloseReturned s /\
    (forall s', Close s = Returned tt s' ->
       closeCalls r (trace s') = closeCalls r (trace s) /\
       closed (pool s') = true /\
       buf (resources (pool s')) = buf (resources (pool s))).
Proof.
  intros s r Hm Hc.
  pose proof (Close_closed s Hm Hc) as H.
  split; [exact H|]. split; [|split].
  - unfold bind. rewrite H. exact H.
  - pose proof (solo_Close s Hm) as Hs. rewrite H in Hs. exact Hs.
  - intros s' H'. rewrite H in H'. inversion H'; subst. auto.
Qed.

Lemma Close_idempotent_witness :
  m (pool (sample_closed [CloseCall res1; CloseCall res2])) = false /\
  closed (pool (sample_closed [CloseCall res1; CloseCall res2])) = true /\
  Close (sample_pool [Some res1; Some res2])
    = Returned tt (sample_closed [CloseCall res1; CloseCall res2]) /\
  Close (sample_closed [CloseCall res1; CloseCall res2])
    = Returned tt (sample_closed [CloseCall res1; CloseCall res2]).
Proof.
  refine (conj eq_refl (conj eq_refl (conj eq_refl _))).
  exact (proj1 (Close_idempotent
                  (sample_closed [CloseCall res1; CloseCall res2]) res1
                  eq_refl eq_refl)).
Defined.

(** [New] with a size above what [make] accepts panics, whatever the limit
    is; the trace is as before. *)
Lemma New_beyond_limit :
  forall (limit : N) (fn : Factory) (size : N) (tr : list event),
    (limit < size)%N ->
    New limit fn size tr = (Panics MakechanSizeOutOfRange, tr).
Proof.
  intros limit fn size tr H. unfold New, make_chan.
  destruct (size <=? 0)%N eqn:E; [apply N.leb_le in E; lia|].
  destruct (size <=? limit)%N eqn:E'; [apply N.leb_le in E'; lia|].
  reflexivity.
Qed.

(** C7 as stated fails: the largest value of a 64-bit [uint] is a size above
    0 for which [New] does not return a pool; it panics in [make]. *)
Lemma New_panics_on_largest_uint :
  ~ New_returns_pool_for_every_size sample_limit.
Proof.
  intros H.
  specialize (H sample_factory (2 ^ 64 - 1)%N [] eq_refl eq_refl).
  rewrite (New_beyond_limit sample_limit sample_factory (2 ^ 64 - 1)%N [])
    in H by reflexivity.
  discriminate H.
Qed.

(** C7, amended.  [New] fails, with the error [size value too small] and no
    pool, exactly when the size is at most 0.  For a size above 0 that
    [make] accepts it returns, with a nil error, a pool whose channel has
    that capacity and holds nothing, with the flag clear and the mutex free.
    For a size above that limit it panics in [make].  In every case it
    leaves the trace as it found it: the factory is stored, not called. *)
Theorem New_checks_size :
  forall (limit : N) (fn : Factory) (size : N) (tr : list event),
    (New limit fn size tr =
       (Returns (None, Some (ErrorsNew "size value too small")), tr)
     <-> (size <= 0)%N) /\
    (New limit fn size tr =
       (Returns
          (Some {| m := false;
                   resources := {| buf := []; cap := size; chclosed := false |};
                   factory := fn;
                   closed := false |}, None), tr)
     <-> (0 < size /\ size <= limit)%N) /\
    (New limit fn size tr = (Panics MakechanSizeOutOfRange, tr)
     <-> (0 < size /\ limit < size)%N) /\
    snd (New limit fn size tr) = tr /\
    factoryCalls (snd (New limit fn size tr)) = factoryCalls tr.
Proof.
  intros limit fn size tr. unfold New, make_chan.
  destruct (size <=? 0)%N eqn:E.
  - apply N.leb_le in E.
    split; [|split; [|split; [|split]]]; try reflexivity;
      split; intros H; try discriminate H; try reflexivity; lia.
  - apply N.leb_gt in E. destruct (size <=? limit)%N eqn:E'.
    + apply N.leb_le in E'.
      split; [|split; [|split; [|split]]]; try reflexivity;
        split; intros H; try discriminate H; try reflexivity; lia.
    + apply N.leb_gt in E'.
      split; [|split; [|split; [|split]]]; try reflexivity;
        split; intros H; try discriminate H; try reflexivity; lia.
Qed.

Lemma New_checks_size_witness :
  New sample_limit sample_factory 0 [] =
    (Returns (None, Some (ErrorsNew "size value too small")), []) /\
  New sample_limit sample_factory 2 [] =
    (Returns (Some (pool (sample_pool [])), None), []) /\
  New sample_limit sample_factory (2 ^ 64 - 1) [] =
    (Panics MakechanSizeOutOfRange, []).
Proof.
  split; [|split].
  - apply (proj1 (New_checks_size sample_limit sample_factory 0 [])).
    discriminate.
  - apply (proj1 (proj2 (New_checks_size sample_limit sample_factory 2 []))).
    split; [reflexivity | discriminate].
  - apply (proj1 (proj2 (proj2 (New_checks_size sample_limit sample_factory
                                   (2 ^ 64 - 1) [])))).
    split; reflexivity.
Defined.

(** C8. A resource whose [Close] fails, with any error: [Release] of it
    returns all the same, in the closed-pool path and in the full-channel
    path, and [Release] has no result that could carry the error.  [Close] of
    the pool goes through every buffered resource, whatever their [Close]
    methods hand back, and returns. *)
Theorem disposal_errors_absorbed :
  forall (s : State) (i : nat) (e : errorValue) (rs : list Resource),
    m (pool s) = false ->
    consistent (pool s) ->
    buf (resources (pool s)) = map Some rs ->
    let r := {| rid := i; closeResult := Some e |} in
    let c := resources (pool s) in
    call_Close (Some r) s = Returned (Some e) (emit (CloseCall r) s) /\
    Release (Some r) s =
      Returned tt
        (if closed (pool s) then emit (CloseCall r) s
         else if (chan_len c <? cap c)%N then
           emit (LogPrintln "Release:" "In Queue")
             (with_resources (chan_with_buf (buf c ++ [Some r]) c) s)
         else
           emit (CloseCall r) (emit (LogPrintln "Release:" "Closing") s)) /\
    Close s =
      Returned tt
        (if closed (pool s) then s else shut_down s (map CloseCall rs)).
Proof.
  intros s i e rs Hm Hcons Hb r c.
  split; [reflexivity|]. split.
  - destruct (closed (pool s)) eqn:Hc.
    + apply Release_on_closed; assumption.
    + rewrite (Release_open s (Some r) Hm Hc Hcons). fold c.
      destruct (chan_len c <? cap c)%N; reflexivity.
  - destruct (closed (pool s)) eqn:Hc.
    + apply Close_closed; assumption.
    + apply Close_drains; auto. unfold consistent in Hcons. congruence.
Qed.

Lemma disposal_errors_absorbed_witness :
  m (pool (sample_pool [Some res2; Some res1])) = false /\
  consistent (pool (sample_pool [Some res2; Some res1])) /\
  buf (resources (pool (sample_pool [Some res2; Some res1])))
    = map Some [res2; res1] /\
  closeResult res2 = Some (ForeignError 7) /\
  Close (sample_pool [Some res2; Some res1])
    = Returned tt (sample_closed [CloseCall res2; CloseCall res1]).
Proof.
  refine (conj eq_refl (conj eq_refl (conj eq_refl (conj eq_refl _)))).
  exact (proj2 (proj2 (disposal_errors_absorbed
                         (sample_pool [Some res2; Some res1]) 2 (ForeignError 7)
                         [res2; res1] eq_refl eq_refl eq_refl))).
Defined.

(** Two releases on a pool fresh from [New] leave two resources idle. *)
Lemma two_idle_reachable :
  New sample_limit sample_factory 2 [] =
    (Returns (Some (pool (sample_pool [])), None), []) /\
  exists tr,
    replay [CallRelease (Some res1); CallRelease (Some res2)] (sample_pool [])
      = Some ({| pool := pool (sample_pool [Some res1; Some res2]);
                 trace := tr |}, []).
Proof. split; [reflexivity|]. eexists. reflexivity. Qed.

(** C9 as stated fails: with two resources idle, the resource taken by
    [Acquire] and put back by [Release] goes to the back of the channel, and
    the next [Acquire] returns the other one. *)
Lemma roundtrip_other_instance :
  ~ (forall s : State,
       m (pool s) = false -> closed (pool s) = false -> consistent (pool s) ->
       roundtrip_same_instance s).
Proof.
  intros H.
  destruct (H (sample_pool [Some res1; Some res2]) eq_refl eq_refl eq_refl
              (Some res1) None
              (emit (LogPrintln "Acquire:" "Shared Resource")
                 (sample_pool [Some res2]))
              eq_refl eq_refl)
    as (s2 & s3 & HR & HA & _).
  cbv in HR. inversion HR; subst s2; clear HR.
  cbv in HA. discriminate HA.
Qed.

(** C9, amended.  On an open pool, a value that [Acquire] returned and that
    is released into a channel with room is put at the back of the channel;
    the next [Acquire] takes the reuse path, without calling the factory, and
    returns the oldest idle value.  That is the released value itself when
    nothing else was idle at the time of the [Release]. *)
Theorem roundtrip_reuses_oldest :
  forall (s s1 : State) (r : io_Closer) (e : error),
    m (pool s) = false ->
    closed (pool s) = false ->
    consistent (pool s) ->
    Acquire s = Returned (r, e) s1 ->
    (chan_len (resources (pool s1)) < cap (resources (pool s1)))%N ->
    exists s2 s3,
      Release r s1 = Returned tt s2 /\
      Acquire s2 =
        Returned (match buf (resources (pool s1)) with
                  | [] => r
                  | oldest :: _ => oldest
                  end, None) s3 /\
      factoryCalls (trace s3) = factoryCalls (trace s2).
Proof.
  intros s s1 r e Hm Hc Hcons HA Hroom.
  assert (H1 : m (pool s1) = false /\ closed (pool s1) = false /\
               consistent (pool s1)).
  { unfold consistent in *. rewrite Hc in Hcons. open_state s. subst.
    destruct b as [|x b]; cbv in HA; inversion HA; subst; cbn; auto. }
  destruct H1 as (Hm1 & Hc1 & Hcons1).
  pose proof (Release_open s1 r Hm1 Hc1 Hcons1) as HR.
  apply N.ltb_lt in Hroom. rewrite Hroom in HR.
  eexists. eexists. split; [exact HR|]. split.
  - apply Acquire_nonempty with
      (rest := match buf (resources (pool s1)) with
               | [] => []
               | _ :: b => b ++ [r]
               end).
    cbn. destruct (buf (resources (pool s1))); reflexivity.
  - cbn [trace emit with_resources]. rewrite factoryCalls_app.
    unfold factoryCalls at 2. cbn. lia.
Qed.

Lemma roundtrip_reuses_oldest_witness :
  m (pool (sample_pool [])) = false /\
  closed (pool (sample_pool [])) = false /\
  consistent (pool (sample_pool [])) /\
  exists s1 s2 s3,
    Acquire (sample_pool [])
      = Returned (Some {| rid := 100; closeResult := None |}, None) s1 /\
    Release (Some {| rid := 100; closeResult := None |}) s1 = Returned tt s2 /\
    Acquire s2
      = Returned (Some {| rid := 100; closeResult := None |}, None) s3.
Proof.
  refine (conj eq_refl (conj eq_refl (conj eq_refl _))).
  eexists.
  destruct (roundtrip_reuses_oldest (sample_pool []) _ _ _
              eq_refl eq_refl eq_refl eq_refl eq_refl)
    as (s2 & s3 & HR & HA & _).
  exists s2, s3. split; [reflexivity|]. split; [exact HR | exact HA].
Defined.

(** C10.  From a pool made by [New], under every schedule of goroutines that
    call [Acquire], [Release] and [Close]: if the channel is closed then the
    flag is set; a goroutine about to run the [select] of [Release] finds the
    flag clear and the channel open while it alone is between [Lock] and
    [Unlock], so its send returns; and no goroutine ever carries a
    send-on-closed-channel panic.  The same holds for a
    client that makes its calls one after the other. *)
Theorem Release_never_sends_on_closed :
  forall (limit : N) (fn : Factory) (size : N) (p : Pool)
         (sched : list (nat * move)) (i j : nat) (r : io_Closer)
         (cs : list call),
    New limit fn size [] = (Returns (Some p, None), []) ->
    let cfg := run sched (init p) in
    let q := pool (shared cfg) in
    (chclosed (resources q) = true -> closed q = true) /\
    (goroutines cfg i = R68 r ->
       m q = true /\ closed q = false /\ chclosed (resources q) = false /\
       (holds (goroutines cfg j) = true -> j = i) /\
       exists sent s', select_send r (shared cfg) = Returned sent s') /\
    panic_of (goroutines cfg i) <> Some SendOnClosedChannel /\
    panic_of (goroutines cfg i) <> Some CloseOfClosedChannel /\
    exists s' es,
      replay cs {| pool := p; trace := [] |} = Some (s', es) /\
      consistent (pool s') /\
      ~ In SendOnClosedChannel es.
Proof.
  intros limit fn size p sched i j r cs HNew cfg q.
  destruct (reachable_inv limit fn size [] [] p None sched HNew)
    as (Hglob & Hloc & Huniq & Hpan).
  fold cfg in Hglob, Hloc, Huniq, Hpan. fold q in Hglob, Hloc.
  split; [exact Hglob|]. split; [|split; [|split]].
  - intros Hat. specialize (Hloc i). rewrite Hat in Hloc.
    destruct (Hloc eq_refl) as (Hm & _ & Hso & _ & _).
    specialize (Hso eq_refl).
    assert (Hch : chclosed (resources q) = false).
    { destruct (chclosed (resources q)); [|reflexivity].
      specialize (Hglob eq_refl). congruence. }
    split; [exact Hm|]. split; [exact Hso|]. split; [exact Hch|]. split.
    + intros Hj. apply Huniq; [exact Hj|]. rewrite Hat. reflexivity.
    + unfold select_send. fold q. rewrite Hch.
      destruct (chan_len (resources q) <? cap (resources q))%N; eauto.
  - intros H. specialize (Hpan i _ H). discriminate.
  - intros H. specialize (Hpan i _ H). discriminate.
  - destruct (New_consistent _ _ _ _ _ _ _ HNew) as (Hcons & Hm & _).
    destruct (replay_consistent cs {| pool := p; trace := [] |} Hm Hcons)
      as (s' & es & Hrep & _ & Hcons' & _ & Hes).
    exists s', es. repeat split; auto.
    intros Hin. rewrite Forall_forall in Hes.
    specialize (Hes _ Hin). discriminate.
Qed.

Lemma Release_never_sends_on_closed_witness :
  New sample_limit sample_factory 2 [] =
    (Returns (Some (pool (sample_pool [])), None), []) /\
  goroutines
    (run [(0, Start (CallRelease (Some res1))); (0, Step); (0, Step)]
         (init (pool (sample_pool [])))) 0 = R68 (Some res1) /\
  chclosed
    (resources
       (pool (shared
                (run [(0, Start (CallRelease (Some res1))); (0, Step); (0, Step)]
                     (init (pool (sample_pool []))))))) = false.
Proof.
  refine (conj eq_refl (conj eq_refl _)).
  exact (proj1 (proj2 (proj2
           (proj1 (proj2 (Release_never_sends_on_closed
                            sample_limit sample_factory 2 (pool (sample_pool []))
                            [(0, Start (CallRelease (Some res1)));
                             (0, Step); (0, Step)]
                            0 1 (Some res1) [] eq_refl))
                  eq_refl)))).
Defined.

(** * Further properties: one call at a time *)

Import Client.

Ltac arith := unfold io_Closer in *; lia.

Lemma idle_app :
  forall (r : Resource) (s : State) (b1 b2 : list io_Closer),
    buf (resources (pool s)) = b1 ++ b2 ->
    idle r s = count_occ io_Closer_eq_dec b1 (Some r)
               + count_occ io_Closer_eq_dec b2 (Some r).
Proof. intros r s b1 b2 H. unfold idle. rewrite H. apply count_occ_app. Qed.

Lemma count_occ_map_Some :
  forall (r : Resource) (rs : list Resource),
    count_occ io_Closer_eq_dec (map Some rs) (Some r)
    = count_occ Resource_eq_dec rs r.
Proof.
  intros r. induction rs as [|x rs IH]; [reflexivity|].
  change (map Some (x :: rs)) with (Some x :: map Some rs).
  destruct (Resource_eq_dec x r) as [E|E].
  - subst x. rewrite !count_occ_cons_eq by reflexivity. f_equal. exact IH.
  - rewrite !count_occ_cons_neq by congruence. exact IH.
Qed.

Lemma count_occ_one :
  forall r x : Resource,
    count_occ io_Closer_eq_dec [Some x] (Some r)
    = if Resource_eq_dec x r then 1 else 0.
Proof.
  intros r x. destruct (Resource_eq_dec x r) as [E|E].
  - subst x. rewrite count_occ_cons_eq by reflexivity. reflexivity.
  - rewrite count_occ_cons_neq by congruence. reflexivity.
Qed.

Lemma closeCalls_one :
  forall r x : Resource,
    closeCalls r [CloseCall x] = if Resource_eq_dec x r then 1 else 0.
Proof.
  intros r x. unfold closeCalls. destruct (Resource_eq_dec x r) as [E|E].
  - subst x. rewrite count_occ_cons_eq by reflexivity. reflexivity.
  - rewrite count_occ_cons_neq by congruence. reflexivity.
Qed.

Lemma closeCalls_factory :
  forall r : Resource, closeCalls r [FactoryCall] = 0.
Proof.
  intros. unfold closeCalls. rewrite count_occ_cons_neq by discriminate.
  reflexivity.
Qed.

(** What [Release] of a resource does to the count of every resource. *)
Lemma Release_owned :
  forall (s : State) (r : Resource),
    m (pool s) = false ->
    consistent (pool s) ->
    exists s',
      Release (Some r) s = Returned tt s' /\
      (forall q, owned q s' =
                 owned q s + (if Resource_eq_dec r q then 1 else 0)) /\
      m (pool s') = false /\ closed (pool s') = closed (pool s).
Proof.
  intros s r Hm Hcons.
  destruct (closed (pool s)) eqn:Hc.
  - eexists. split; [apply Release_on_closed; assumption|].
    split; [|split; [exact Hm | exact Hc]].
    intros q. unfold owned, idle. cbn [emit pool trace].
    rewrite closeCalls_app, closeCalls_one. arith.
  - rewrite (Release_open s (Some r) Hm Hc Hcons).
    destruct (chan_len (resources (pool s)) <? cap (resources (pool s)))%N.
    + eexists. split; [reflexivity|].
      split; [|split; [exact Hm | exact Hc]].
      intros q. unfold owned, idle.
      cbn [emit with_resources chan_with_buf pool trace resources buf].
      rewrite count_occ_app, count_occ_one, closeCalls_app, closeCalls_log.
      arith.
    + eexists. split; [reflexivity|].
      split; [|split; [exact Hm | exact Hc]].
      intros q. unfold owned, idle. cbn [emit pool trace].
      rewrite !closeCalls_app, closeCalls_log, closeCalls_one. arith.
Qed.

(** [Release] of a resource changes the pool in one of two ways and in no
    other: the resource goes to the back of the channel and nothing is
    closed, or the channel stays as it is and the resource, and only it, is
    closed once. *)
Lemma Release_two_ways :
  forall (s : State) (r : Resource),
    m (pool s) = false ->
    consistent (pool s) ->
    exists s',
      Release (Some r) s = Returned tt s' /\
      ((buf (resources (pool s')) = buf (resources (pool s)) ++ [Some r] /\
        forall q, closeCalls q (trace s') = closeCalls q (trace s))
       \/
       (buf (resources (pool s')) = buf (resources (pool s)) /\
        forall q, closeCalls q (trace s') =
                  closeCalls q (trace s)
                  + (if Resource_eq_dec r q then 1 else 0))) /\
      cap (resources (pool s')) = cap (resources (pool s)) /\
      chclosed (resources (pool s')) = chclosed (resources (pool s)) /\
      factory (pool s') = factory (pool s) /\
      factoryCalls (trace s') = factoryCalls (trace s).
Proof.
  intros s r Hm Hcons.
  destruct (closed (pool s)) eqn:Hc.
  - eexists. split; [apply Release_on_closed; assumption|].
    cbn [emit pool trace]. split; [right; split; [reflexivity|]|].
    + intros q. rewrite closeCalls_app, closeCalls_one. reflexivity.
    + rewrite factoryCalls_app. unfold factoryCalls at 2. cbn.
      repeat split; arith.
  - rewrite (Release_open s (Some r) Hm Hc Hcons).
    assert (Hch : chclosed (resources (pool s)) = false)
      by (unfold consistent in Hcons; congruence).
    destruct (chan_len (resources (pool s)) <? cap (resources (pool s)))%N.
    + eexists. split; [reflexivity|].
      cbn [emit with_resources chan_with_buf pool trace resources buf cap
           chclosed factory].
      split; [left; split; [reflexivity|]|].
      * intros q. rewrite closeCalls_app, closeCalls_log. arith.
      * rewrite factoryCalls_app. unfold factoryCalls at 2. cbn.
        repeat split; arith.
    + eexists. split; [reflexivity|].
      cbn [emit pool trace]. split; [right; split; [reflexivity|]|].
      * intros q. rewrite !closeCalls_app, closeCalls_log, closeCalls_one.
        arith.
      * rewrite !factoryCalls_app. unfold factoryCalls at 2 3. cbn.
        repeat split; arith.
Qed.

(** X1. [Release] of a resource, with the mutex free, always returns, and it
    disposes of the resource exactly once: afterwards the resource is either
    one more time in the channel or closed one more time, never both and
    never neither, whichever of the three paths was taken.  No other resource
    is touched: either the channel is the old one with the resource at its
    back and no [Close] was called, or the channel is the old one and the
    only [Close] called is that of the resource.  Capacity, factory and the
    channel's closed mark stay, the factory is not called, and the mutex is
    free again. *)
Theorem Release_takes_ownership :
  forall (s : State) (r r' : Resource),
    m (pool s) = false ->
    consistent (pool s) ->
    exists s',
      Release (Some r) s = Returned tt s' /\
      owned r' s' = owned r' s + (if Resource_eq_dec r r' then 1 else 0) /\
      idle r s' + closeCalls r (trace s')
        = S (idle r s + closeCalls r (trace s)) /\
      m (pool s') = false /\
      closed (pool s') = closed (pool s) /\
      ((buf (resources (pool s')) = buf (resources (pool s)) ++ [Some r] /\
        forall q, closeCalls q (trace s') = closeCalls q (trace s))
       \/
       (buf (resources (pool s')) = buf (resources (pool s)) /\
        forall q, closeCalls q (trace s') =
                  closeCalls q (trace s)
                  + (if Resource_eq_dec r q then 1 else 0))) /\
      cap (resources (pool s')) = cap (resources (pool s)) /\
      chclosed (resources (pool s')) = chclosed (resources (pool s)) /\
      factory (pool s') = factory (pool s) /\
      factoryCalls (trace s') = factoryCalls (trace s).
Proof.
  intros s r r' Hm Hcons.
  pose proof (Release_owned s r Hm Hcons) as H.
  destruct H as (s' & HR & Hown & Hm' & Hc').
  destruct (Release_two_ways s r Hm Hcons) as (s2 & HR2 & Hways).
  assert (s2 = s') by congruence. subst s2.
  exists s'. split; [exact HR|]. split; [apply Hown|].
  split; [|split; [assumption|split; [assumption|exact Hways]]].
  specialize (Hown r). unfold owned in Hown.
  destruct (Resource_eq_dec r r); [arith | congruence].
Qed.

Lemma Release_takes_ownership_witness :
  m (pool (sample_pool [Some res1; Some res2])) = false /\
  consistent (pool (sample_pool [Some res1; Some res2])) /\
  exists s',
    Release (Some res3) (sample_pool [Some res1; Some res2]) = Returned tt s' /\
    owned res3 s' = owned res3 (sample_pool [Some res1; Some res2]) + 1.
Proof.
  refine (conj eq_refl (conj eq_refl _)).
  destruct (Release_takes_ownership (sample_pool [Some res1; Some res2])
              res3 res3 eq_refl eq_refl) as (s' & HR & Hown & _).
  exists s'. split; [exact HR | exact Hown].
Defined.

(** What [Close] does to the count of a resource, whether it returns or
    panics on a nil value. *)
Lemma Close_owned :
  forall (s : State) (r : Resource),
    m (pool s) = false ->
    consistent (pool s) ->
    exists s' e,
      after CallClose s = Some (s', e) /\
      owned r s' = owned r s /\
      closed (pool s') = true /\
      m (pool s') = false /\
      (e = None \/ e = Some NilDereference) /\
      (closed (pool s) = false -> e = None ->
       buf (resources (pool s')) = [] /\
       closeCalls r (trace s') = closeCalls r (trace s) + idle r s).
Proof.
  intros s r Hm Hcons. unfold after.
  destruct (closed (pool s)) eqn:Hc.
  - rewrite (Close_closed s Hm Hc). exists s, None.
    repeat split; auto; discriminate.
  - assert (Hch : chclosed (resources (pool s)) = false)
      by (unfold consistent in Hcons; congruence).
    destruct (buffer_shape (buf (resources (pool s))))
      as [[rs Hb] | [rs [rest Hb]]].
    + rewrite (Close_drains s rs Hm Hc Hch Hb). eexists. exists None.
      split; [reflexivity|].
      assert (Hcalls : closeCalls r (trace (shut_down s (map CloseCall rs)))
                       = closeCalls r (trace s) + idle r s).
      { unfold shut_down. cbn [trace].
        rewrite closeCalls_app, closeCalls_map. f_equal.
        unfold idle. rewrite Hb. symmetry. apply count_occ_map_Some. }
      repeat split; auto.
      unfold owned. rewrite Hcalls. unfold idle at 1. cbn.
      apply Nat.add_comm.
    + rewrite (Close_nil s rs rest Hm Hc Hch Hb). eexists. eexists.
      split; [reflexivity|].
      split; [|repeat split; auto; discriminate].
      unfold owned. rewrite (idle_app r s _ _ Hb).
      unfold idle. cbn [pool resources buf trace].
      rewrite closeCalls_app, closeCalls_map, count_occ_map_Some.
      rewrite count_occ_cons_neq by discriminate.
      arith.
Qed.

(** X2. [Close], with the mutex free, never loses a resource and never closes
    one twice: whether it returns or panics on a nil value, every resource is
    afterwards as often "in the channel or closed" as before.  The flag is
    set and the mutex free afterwards, and when a [Close] on an open pool
    returns, the channel is empty and every resource has been closed as often
    as it was idle. *)
Theorem Close_conserves_resources :
  forall (s : State) (r : Resource),
    m (pool s) = false ->
    consistent (pool s) ->
    exists s' e,
      after CallClose s = Some (s', e) /\
      owned r s' = owned r s /\
      closed (pool s') = true /\
      m (pool s') = false /\
      (e = None \/ e = Some NilDereference) /\
      (closed (pool s) = false -> e = None ->
       buf (resources (pool s')) = [] /\
       closeCalls r (trace s') = closeCalls r (trace s) + idle r s).
Proof. exact Close_owned. Qed.

Lemma Close_conserves_resources_witness :
  m (pool (sample_pool [Some res1; None; Some res2])) = false /\
  consistent (pool (sample_pool [Some res1; None; Some res2])) /\
  exists s' e,
    after CallClose (sample_pool [Some res1; None; Some res2]) = Some (s', e) /\
    owned res2 s' = owned res2 (sample_pool [Some res1; None; Some res2]).
Proof.
  refine (conj eq_refl (conj eq_refl _)).
  destruct (Close_conserves_resources
              (sample_pool [Some res1; None; Some res2]) res2 eq_refl eq_refl)
    as (s' & e & Hafter & Hown & _).
  exists s', e. split; [exact Hafter | exact Hown].
Defined.

(** What [Acquire] does to the count of a resource: it can only take one
    entry out of the channel. *)
Lemma Acquire_accounts :
  forall (s s' : State) (res : io_Closer * error) (r : Resource),
    Acquire s = Returned res s' ->
    owned r s' <= owned r s /\
    closeCalls r (trace s') = closeCalls r (trace s).
Proof.
  intros s s' res r H. unfold owned, idle. open_state s.
  destruct b as [|x b]; [destruct cc|]; cbv in H; inversion H; subst;
    cbn [pool trace resources buf].
  - rewrite closeCalls_app, closeCalls_log. arith.
  - rewrite !closeCalls_app, closeCalls_log, closeCalls_factory. arith.
  - rewrite closeCalls_app, closeCalls_log.
    destruct (io_Closer_eq_dec x (Some r)) as [E|E].
    + rewrite (count_occ_cons_eq _ _ E). arith.
    + rewrite (count_occ_cons_neq _ _ E). arith.
Qed.

(** [Release] of the nil value, in full: on an open pool with room the nil
    goes into the channel; otherwise the call panics. *)
Lemma Release_nil_cases :
  forall s : State,
    m (pool s) = false ->
    consistent (pool s) ->
    Release None s =
      if closed (pool s) then Panicked NilDereference s
      else if (chan_len (resources (pool s)) <? cap (resources (pool s)))%N
      then Returned tt
             (emit (LogPrintln "Release:" "In Queue")
                (with_resources
                   (chan_with_buf (buf (resources (pool s)) ++ [None])
                                  (resources (pool s))) s))
      else Panicked NilDereference (emit (LogPrintln "Release:" "Closing") s).
Proof.
  intros s Hm Hcons. destruct (closed (pool s)) eqn:Hc.
  - open_state s. subst. reflexivity.
  - apply (Release_open s None Hm Hc Hcons).
Qed.

(** One call changes the count of a resource by what it released. *)
Lemma after_accounts :
  forall (c : call) (s s' : State) (e : option panicValue) (r : Resource),
    m (pool s) = false ->
    consistent (pool s) ->
    after c s = Some (s', e) ->
    owned r s' <= owned r s + releases r [c] /\
    (acquires [c] = false -> owned r s' = owned r s + releases r [c]).
Proof.
  intros c s s' e r Hm Hcons H. destruct c as [|[x|]|].
  - cbn in H. destruct (Acquire s) as [res s1| | |] eqn:HA; inversion H; subst.
    + destruct (Acquire_accounts _ _ _ r HA) as [Hle _]. cbn.
      split; [arith | discriminate].
    + destruct (Acquire_total s) as (res & s1 & HA'). congruence.
  - destruct (Release_owned s x Hm Hcons) as (s1 & HR & Hown & _).
    cbn in H. rewrite HR in H. inversion H; subst. cbn [releases].
    rewrite Hown. split; [arith | intros _; arith].
  - cbn in H. rewrite (Release_nil_cases s Hm Hcons) in H. cbn [releases].
    destruct (closed (pool s)).
    + inversion H; subst. split; [arith | intros _; arith].
    + destruct (chan_len (resources (pool s)) <? cap (resources (pool s)))%N;
        inversion H; subst; unfold owned, idle;
        cbn [emit with_resources chan_with_buf pool trace resources buf].
      * rewrite count_occ_app, closeCalls_app, closeCalls_log.
        match goal with
        | |- context [count_occ ?d [None] (Some r)] =>
            change (count_occ d [None] (Some r)) with 0
        end.
        split; [arith | intros _; arith].
      * rewrite closeCalls_app, closeCalls_log. split; [arith | intros _; arith].
  - destruct (Close_owned s r Hm Hcons) as (s1 & e1 & Hafter & Hown & _).
    rewrite Hafter in H. inversion H; subst. cbn [releases].
    rewrite Hown. split; [arith | intros _; arith].
Qed.

Lemma releases_cons :
  forall (r : Resource) (c : call) (cs : list call),
    releases r (c :: cs) = releases r [c] + releases r cs.
Proof. intros r c cs. destruct c as [|[x|]|]; cbn; arith. Qed.

Lemma acquires_cons :
  forall (c : call) (cs : list call),
    acquires (c :: cs) = false ->
    acquires [c] = false /\ acquires cs = false.
Proof.
  intros c cs H. destruct c as [|x|]; cbn in *; try discriminate H; split; auto.
Qed.

(** Accounting along a list of calls. *)
Lemma replay_accounts :
  forall (cs : list call) (s s' : State) (es : list panicValue) (r : Resource),
    m (pool s) = false ->
    consistent (pool s) ->
    replay cs s = Some (s', es) ->
    owned r s' <= owned r s + releases r cs /\
    (acquires cs = false -> owned r s' = owned r s + releases r cs).
Proof.
  induction cs as [|c cs IH]; intros s s' es r Hm Hcons H.
  - cbn in H. inversion H; subst. cbn. split; [arith | intros _; arith].
  - cbn [replay] in H.
    destruct (after c s) as [[s1 e]|] eqn:Hafter; [|discriminate H].
    destruct (replay cs s1) as [[s2 es2]|] eqn:Hrep; [|discriminate H].
    inversion H; subst s2; clear H.
    destruct (calls_keep_consistent c s s1 e Hm Hcons Hafter)
      as (Hm1 & Hcons1 & _).
    destruct (after_accounts c s s1 e r Hm Hcons Hafter) as [Hle Heq].
    destruct (IH s1 s' es2 r Hm1 Hcons1 Hrep) as [Hle' Heq'].
    rewrite releases_cons. split; [arith|].
    intros Hacq. destruct (acquires_cons c cs Hacq) as [Ha Hb].
    rewrite (Heq' Hb), (Heq Ha). arith.
Qed.

(** X3. A client works on a pool from [New] with any calls, one after the
    other.  At every moment a resource is in the channel or closed at most as
    often as it was released: the pool never closes a resource it was not
    given, and a resource released once is closed at most once.  As long as
    no [Acquire] was made nothing is lost either: each released resource is
    in the channel or closed exactly as often as it was released. *)
Theorem closed_no_more_than_released :
  forall (limit : N) (fn : Factory) (size : N) (p : Pool) (cs : list call)
         (s' : State) (es : list panicValue) (r : Resource),
    New limit fn size [] = (Returns (Some p, None), []) ->
    replay cs {| pool := p; trace := [] |} = Some (s', es) ->
    idle r s' + closeCalls r (trace s') <= releases r cs /\
    closeCalls r (trace s') <= releases r cs /\
    (acquires cs = false ->
     idle r s' + closeCalls r (trace s') = releases r cs).
Proof.
  intros limit fn size p cs s' es r HNew Hrep.
  destruct (New_consistent _ _ _ _ _ _ _ HNew) as (Hcons & Hm & _).
  destruct (replay_accounts cs {| pool := p; trace := [] |} s' es r
              Hm Hcons Hrep) as [Hle Heq].
  assert (H0 : owned r {| pool := p; trace := [] |} = 0).
  { destruct (New_returns _ _ _ _ _ _ _ HNew) as (-> & _). reflexivity. }
  rewrite H0 in Hle, Heq. unfold owned in Hle, Heq.
  split; [arith|]. split; [arith|]. intros Hacq. rewrite (Heq Hacq). arith.
Qed.

Lemma closed_no_more_than_released_witness :
  New sample_limit sample_factory 2 [] =
    (Returns (Some (pool (sample_pool [])), None), []) /\
  exists s' es,
    replay [CallRelease (Some res1); CallRelease (Some res2);
            CallRelease (Some res3); CallClose; CallRelease (Some res1)]
           (sample_pool []) = Some (s', es) /\
    closeCalls res3 (trace s') <= 1.
Proof.
  refine (conj eq_refl _).
  eexists. eexists. split; [reflexivity|].
  exact (proj1 (proj2 (closed_no_more_than_released
                         sample_limit sample_factory 2 (pool (sample_pool []))
                         [CallRelease (Some res1); CallRelease (Some res2);
                          CallRelease (Some res3); CallClose;
                          CallRelease (Some res1)]
                         _ _ res3 eq_refl eq_refl))).
Defined.

Lemma logged_step :
  forall (a b : string) (k : nat) (bf : list io_Closer) (s : State)
         (bf1 : list io_Closer),
    logged a b k bf
      (emit (LogPrintln a b)
         (with_resources (chan_with_buf bf1 (resources (pool s))) s))
    = logged a b (S k) bf s.
Proof.
  intros. unfold logged, emit, with_resources, chan_with_buf. cbn.
  rewrite <- app_assoc. reflexivity.
Qed.

(** Releasing values into an open pool that has room for all of them puts
    them at the back of the channel, in order. *)
Lemma release_all_fits :
  forall (xs : list io_Closer) (s : State),
    m (pool s) = false ->
    closed (pool s) = false ->
    consistent (pool s) ->
    List.length (buf (resources (pool s))) + List.length xs
      <= N.to_nat (cap (resources (pool s))) ->
    release_all xs s =
      Returned tt
        (logged "Release:" "In Queue" (List.length xs)
           (buf (resources (pool s)) ++ xs) s).
Proof.
  induction xs as [|x xs IH]; intros s Hm Hc Hcons Hroom.
  - cbn. unfold ret, logged. rewrite !app_nil_r.
    destruct s as [[? [? ? ?] ? ?] ?]. reflexivity.
  - cbn [release_all]. unfold bind at 1.
    rewrite (Release_open s x Hm Hc Hcons).
    assert (Hlt : (chan_len (resources (pool s))
                   <? cap (resources (pool s)))%N = true).
    { apply N.ltb_lt. unfold chan_len. cbn [List.length] in Hroom. arith. }
    rewrite Hlt. rewrite IH; cbn [emit with_resources chan_with_buf pool
                                  resources buf cap m closed chclosed]; auto.
    + rewrite logged_step. cbn [List.length].
      rewrite <- app_assoc. reflexivity.
    + rewrite length_app. cbn [List.length] in *. arith.
Qed.

(** [n] calls of [Acquire] on a channel that holds at least [n] values take
    the [n] oldest, in order, each with a nil error. *)
Lemma acquire_n_takes :
  forall (n : nat) (s : State),
    n <= List.length (buf (resources (pool s))) ->
    acquire_n n s =
      Returned (map (fun x => (x, None)) (firstn n (buf (resources (pool s)))))
        (logged "Acquire:" "Shared Resource" n
           (skipn n (buf (resources (pool s)))) s).
Proof.
  induction n as [|n IH]; intros s Hn.
  - cbn. unfold ret, logged. rewrite app_nil_r.
    destruct s as [[? [? ? ?] ? ?] ?]. reflexivity.
  - destruct (buf (resources (pool s))) as [|x rest] eqn:Hb;
      [cbn in Hn; arith|].
    cbn [acquire_n]. unfold bind at 1.
    rewrite (Acquire_nonempty s x rest Hb). unfold bind at 1.
    rewrite IH; cbn [emit with_resources chan_with_buf pool resources buf];
      [|cbn in Hn; arith].
    unfold ret. rewrite logged_step. reflexivity.
Qed.

Lemma factoryCalls_repeat_log :
  forall (a b : string) (k : nat),
    factoryCalls (repeat (LogPrintln a b) k) = 0.
Proof.
  intros a b. unfold factoryCalls. induction k as [|k IH]; [reflexivity|].
  cbn [repeat]. rewrite count_occ_cons_neq by discriminate. exact IH.
Qed.

(** X4. The channel is first in, first out.  Values released into an open
    pool that has room for them come back from the following calls of
    [Acquire] in the order of their release, behind the values that were idle
    before, each with a nil error, and the factory is not called. *)
Theorem released_values_come_back_in_order :
  forall (xs : list io_Closer) (k : nat) (s : State),
    m (pool s) = false ->
    closed (pool s) = false ->
    consistent (pool s) ->
    List.length (buf (resources (pool s))) + List.length xs
      <= N.to_nat (cap (resources (pool s))) ->
    k <= List.length (buf (resources (pool s))) + List.length xs ->
    let all := buf (resources (pool s)) ++ xs in
    let s' :=
      logged "Acquire:" "Shared Resource" k (skipn k all)
        (logged "Release:" "In Queue" (List.length xs) all s) in
    (release_all xs ;; acquire_n k) s =
      Returned (map (fun x => (x, None)) (firstn k all)) s' /\
    factoryCalls (trace s') = factoryCalls (trace s) /\
    buf (resources (pool s')) = skipn k all.
Proof.
  intros xs k s Hm Hc Hcons Hroom Hk all s'.
  split; [|split; [|reflexivity]].
  - unfold bind. rewrite (release_all_fits xs s Hm Hc Hcons Hroom).
    rewrite acquire_n_takes; [reflexivity|].
    cbn [logged pool resources buf]. rewrite length_app. exact Hk.
  - subst s'. cbn [logged trace].
    rewrite !factoryCalls_app, !factoryCalls_repeat_log. arith.
Qed.

Lemma released_values_come_back_in_order_witness :
  m (pool (sample_pool [])) = false /\
  closed (pool (sample_pool [])) = false /\
  consistent (pool (sample_pool [])) /\
  (release_all [Some res1; Some res2] ;; acquire_n 2) (sample_pool []) =
    Returned [(Some res1, None); (Some res2, None)]
      (logged "Acquire:" "Shared Resource" 2 []
         (logged "Release:" "In Queue" 2 [Some res1; Some res2]
            (sample_pool []))).
Proof.
  refine (conj eq_refl (conj eq_refl (conj eq_refl _))).
  refine (proj1 (released_values_come_back_in_order
                   [Some res1; Some res2] 2 (sample_pool [])
                   eq_refl eq_refl eq_refl _ _)); cbn; arith.
Defined.

(** X5. Releasing any number of resources into an open pool: as many as
    there is room for go into the channel, in order, behind what was idle;
    each of the others is closed exactly once, and the channel never holds
    more than before plus the room. *)
Theorem release_all_fills_then_closes :
  forall (rs : list Resource) (s : State) (r : Resource),
    m (pool s) = false ->
    closed (pool s) = false ->
    consistent (pool s) ->
    exists s',
      release_all (map Some rs) s = Returned tt s' /\
      buf (resources (pool s')) =
        buf (resources (pool s)) ++ map Some (firstn (room s) rs) /\
      closeCalls r (trace s') =
        closeCalls r (trace s)
        + count_occ Resource_eq_dec (skipn (room s) rs) r /\
      cap (resources (pool s')) = cap (resources (pool s)) /\
      m (pool s') = false /\ closed (pool s') = false.
Proof.
  induction rs as [|x rs IH]; intros s r Hm Hc Hcons.
  - exists s. cbn. rewrite firstn_nil, skipn_nil, app_nil_r. cbn.
    repeat split; auto.
  - cbn [map release_all]. unfold bind at 1.
    rewrite (Release_open s (Some x) Hm Hc Hcons).
    destruct (chan_len (resources (pool s)) <? cap (resources (pool s)))%N
      eqn:Hlt.
    + apply N.ltb_lt in Hlt. unfold chan_len in Hlt. cbv beta iota.
      match goal with
      | |- context [release_all _ ?t] => set (s1 := t)
      end.
      destruct (IH s1 r Hm Hc) as (s' & HR & Hb & Hcl & Hcap & Hm' & Hc').
      { unfold consistent in *. exact Hcons. }
      exists s'. rewrite HR. split; [reflexivity|].
      assert (Hroom : room s = S (room s1)).
      { unfold room. subst s1.
        cbn [emit with_resources chan_with_buf pool resources buf cap].
        rewrite length_app. cbn [List.length]. arith. }
      rewrite Hroom. cbn [firstn skipn map].
      rewrite Hb, Hcl. subst s1.
      cbn [emit with_resources chan_with_buf pool resources buf cap trace].
      rewrite <- app_assoc, closeCalls_app, closeCalls_log.
      repeat split; auto; arith.
    + apply N.ltb_ge in Hlt. unfold chan_len in Hlt. cbv beta iota.
      match goal with
      | |- context [release_all _ ?t] => set (s1 := t)
      end.
      destruct (IH s1 r Hm Hc Hcons) as (s' & HR & Hb & Hcl & Hcap & Hm' & Hc').
      exists s'. rewrite HR. split; [reflexivity|].
      assert (Hroom : room s = 0) by (unfold room; arith).
      assert (Hroom1 : room s1 = 0) by exact Hroom.
      rewrite Hroom in *. rewrite Hroom1 in *.
      cbn [firstn skipn map] in *. rewrite Hb, Hcl. subst s1.
      cbn [emit pool resources buf cap trace].
      rewrite !closeCalls_app, closeCalls_log, closeCalls_one.
      repeat split; auto.
      destruct (Resource_eq_dec x r) as [E|E].
      * rewrite (count_occ_cons_eq _ _ E). arith.
      * rewrite (count_occ_cons_neq _ _ E). arith.
Qed.

Lemma release_all_fills_then_closes_witness :
  m (pool (sample_pool [Some res1])) = false /\
  closed (pool (sample_pool [Some res1])) = false /\
  consistent (pool (sample_pool [Some res1])) /\
  exists s',
    release_all [Some res2; Some res3; Some res3] (sample_pool [Some res1])
      = Returned tt s' /\
    buf (resources (pool s')) = [Some res1; Some res2] /\
    closeCalls res3 (trace s') = 2.
Proof.
  refine (conj eq_refl (conj eq_refl (conj eq_refl _))).
  destruct (release_all_fills_then_closes [res2; res3; res3]
              (sample_pool [Some res1]) res3 eq_refl eq_refl eq_refl)
    as (s' & HR & Hb & Hcl & _).
  exists s'. split; [exact HR|]. split; [exact Hb | exact Hcl].
Defined.

(** One call on a pool that is closed with an empty channel. *)
Lemma after_inert :
  forall (c : call) (s s' : State) (e : option panicValue) (r : Resource),
    m (pool s) = false ->
    closed (pool s) = true ->
    chclosed (resources (pool s)) = true ->
    buf (resources (pool s)) = [] ->
    after c s = Some (s', e) ->
    pool s' = pool s /\
    factoryCalls (trace s') = factoryCalls (trace s) /\
    closeCalls r (trace s') = closeCalls r (trace s) + releases r [c].
Proof.
  intros c s s' e r Hm Hc Hch Hb H. open_state s. subst.
  destruct c as [|[x|]|]; cbv in H; inversion H; subst;
    cbn [pool trace releases]; (split; [reflexivity|]).
  - rewrite factoryCalls_app, closeCalls_app, closeCalls_log.
    unfold factoryCalls at 2. cbn. split; arith.
  - rewrite factoryCalls_app, closeCalls_app, closeCalls_one.
    unfold factoryCalls at 2. cbn. split; arith.
  - split; arith.
  - split; arith.
Qed.

(** X6. A pool that is closed with an empty channel stays exactly as it is,
    whatever calls follow one after the other: the pool object does not
    change, the factory is never called, every resource released is closed
    at once, and [Acquire] keeps returning [ErrPoolClosed]. *)
Theorem closed_pool_is_inert :
  forall (cs : list call) (s s' : State) (es : list panicValue)
         (r : Resource),
    m (pool s) = false ->
    closed (pool s) = true ->
    chclosed (resources (pool s)) = true ->
    buf (resources (pool s)) = [] ->
    replay cs s = Some (s', es) ->
    pool s' = pool s /\
    factoryCalls (trace s') = factoryCalls (trace s) /\
    closeCalls r (trace s') = closeCalls r (trace s) + releases r cs /\
    Acquire s' =
      Returned (None, ErrPoolClosed)
        (emit (LogPrintln "Acquire:" "Shared Resource") s').
Proof.
  induction cs as [|c cs IH]; intros s s' es r Hm Hc Hch Hb H.
  - cbn in H. inversion H; subst. cbn [releases].
    repeat split; try arith.
    open_state s'. subst. reflexivity.
  - cbn [replay] in H.
    destruct (after c s) as [[s1 e]|] eqn:Hafter; [|discriminate H].
    destruct (replay cs s1) as [[s2 es2]|] eqn:Hrep; [|discriminate H].
    inversion H; subst s2; clear H.
    destruct (after_inert c s s1 e r Hm Hc Hch Hb Hafter) as (Hp & Hf & Hcl).
    destruct (IH s1 s' es2 r) as (Hp' & Hf' & Hcl' & HA); try assumption;
      try (rewrite Hp; assumption).
    rewrite releases_cons.
    split; [congruence|]. split; [congruence|]. split; [arith | exact HA].
Qed.

Lemma closed_pool_is_inert_witness :
  m (pool (sample_closed [])) = false /\
  closed (pool (sample_closed [])) = true /\
  chclosed (resources (pool (sample_closed []))) = true /\
  buf (resources (pool (sample_closed []))) = [] /\
  exists s' es,
    replay [CallAcquire; CallRelease (Some res1); CallRelease None; CallClose]
           (sample_closed []) = Some (s', es) /\
    pool s' = pool (sample_closed []).
Proof.
  refine (conj eq_refl (conj eq_refl (conj eq_refl (conj eq_refl _)))).
  eexists. eexists. split; [reflexivity|].
  exact (proj1 (closed_pool_is_inert
                  [CallAcquire; CallRelease (Some res1); CallRelease None;
                   CallClose]
                  (sample_closed []) _ _ res1
                  eq_refl eq_refl eq_refl eq_refl eq_refl)).
Defined.

(** X7. A nil value in the channel stops [Close] half way.  The resources in
    front of the nil are closed, then the call panics; it leaves the mutex
    free, the flag set and the channel closed, and the values behind the nil
    still in the channel.  A further [Close] returns at once and closes none
    of them, and [Acquire] hands the oldest of them out with a nil error
    although the pool is closed. *)
Theorem nil_in_channel_stops_Close :
  forall (s : State) (rs : list Resource) (x : io_Closer)
         (rest : list io_Closer),
    m (pool s) = false ->
    closed (pool s) = false ->
    consistent (pool s) ->
    buf (resources (pool s)) = map Some rs ++ None :: x :: rest ->
    let left_over (b : list io_Closer) : Pool :=
      {| m := false;
         resources := {| buf := b; cap := cap (resources (pool s));
                         chclosed := true |};
         factory := factory (pool s);
         closed := true |} in
    let s1 := {| pool := left_over (x :: rest);
                 trace := trace s ++ map CloseCall rs |} in
    Close s = Panicked NilDereference s1 /\
    Close s1 = Returned tt s1 /\
    Acquire s1 =
      Returned (x, None)
        {| pool := left_over rest;
           trace := trace s1 ++ [LogPrintln "Acquire:" "Shared Resource"] |}.
Proof.
  intros s rs x rest Hm Hc Hcons Hb left_over s1.
  assert (Hch : chclosed (resources (pool s)) = false)
    by (unfold consistent in Hcons; congruence).
  split; [|split].
  - apply (Close_nil s rs (x :: rest) Hm Hc Hch Hb).
  - apply Close_closed; reflexivity.
  - rewrite (Acquire_nonempty s1 x rest eq_refl). reflexivity.
Qed.

Lemma nil_in_channel_stops_Close_witness :
  m (pool (sample_pool [Some res1; None; Some res2])) = false /\
  closed (pool (sample_pool [Some res1; None; Some res2])) = false /\
  consistent (pool (sample_pool [Some res1; None; Some res2])) /\
  buf (resources (pool (sample_pool [Some res1; None; Some res2])))
    = map Some [res1] ++ None :: Some res2 :: [] /\
  Close (sample_pool [Some res1; None; Some res2]) =
    Panicked NilDereference
      {| pool := {| m := false;
                    resources := {| buf := [Some res2]; cap := 2;
                                    chclosed := true |};
                    factory := sample_factory;
                    closed := true |};
         trace := [CloseCall res1] |}.
Proof.
  refine (conj eq_refl (conj eq_refl (conj eq_refl (conj eq_refl _)))).
  exact (proj1 (nil_in_channel_stops_Close
                  (sample_pool [Some res1; None; Some res2]) [res1]
                  (Some res2) [] eq_refl eq_refl eq_refl eq_refl)).
Defined.

(** X8. [Release] does not look at the value it is given.  The nil value is
    put into the channel of an open pool with room like any other, and a
    following [Acquire] on a pool that held nothing else returns it with a
    nil error; on a closed pool or a full channel [Release(nil)] panics, and
    the deferred [Unlock] leaves the mutex free and the channel as it was. *)
Theorem Release_nil :
  forall s : State,
    m (pool s) = false ->
    consistent (pool s) ->
    let c := resources (pool s) in
    let queued :=
      emit (LogPrintln "Release:" "In Queue")
        (with_resources (chan_with_buf (buf c ++ [None]) c) s) in
    Release None s =
      (if closed (pool s) then Panicked NilDereference s
       else if (chan_len c <? cap c)%N then Returned tt queued
       else Panicked NilDereference
              (emit (LogPrintln "Release:" "Closing") s)) /\
    (if closed (pool s) then True
     else if (chan_len c <? cap c)%N then
       match buf c with
       | [] =>
           (Release None ;; Acquire) s =
             Returned (None, None)
               (emit (LogPrintln "Acquire:" "Shared Resource")
                  (emit (LogPrintln "Release:" "In Queue") s))
       | _ :: _ => True
       end
     else True).
Proof.
  intros s Hm Hcons c queued.
  pose proof (Release_nil_cases s Hm Hcons) as H. fold c in H.
  split; [exact H|].
  destruct (closed (pool s)) eqn:Hc; [exact I|].
  destruct (chan_len c <? cap c)%N eqn:Hlt; [|exact I].
  destruct (buf c) as [|y b] eqn:Hb; [|exact I].
  unfold bind. rewrite H.
  match goal with
  | |- context [Acquire ?t] => rewrite (Acquire_nonempty t None [] eq_refl)
  end.
  subst c. open_state s. subst. reflexivity.
Qed.

Lemma Release_nil_witness :
  m (pool (sample_pool [])) = false /\
  consistent (pool (sample_pool [])) /\
  Release None (sample_pool []) =
    Returned tt
      (emit (LogPrintln "Release:" "In Queue") (sample_pool [None])).
Proof.
  refine (conj eq_refl (conj eq_refl _)).
  exact (proj1 (Release_nil (sample_pool []) eq_refl eq_refl)).
Defined.

(** * Further properties: many goroutines *)

(** What one statement of a goroutine does to the rest of the pool. *)
Lemma gstep_more :
  forall (g g' : goroutine) (s s' : State),
    gstep g s = Some (g', s') ->
    local_inv g (pool s) ->
    cap (resources (pool s')) = cap (resources (pool s)) /\
    factory (pool s') = factory (pool s) /\
    ((chan_len (resources (pool s)) <= cap (resources (pool s)))%N ->
     (chan_len (resources (pool s')) <= cap (resources (pool s')))%N) /\
    (closed (pool s) = true -> closed (pool s') = true) /\
    (chclosed (resources (pool s)) = true ->
     chclosed (resources (pool s')) = true) /\
    (closed (pool s) = true ->
     List.length (buf (resources (pool s')))
     <= List.length (buf (resources (pool s)))) /\
    ((saw_closed g = true -> chclosed (resources (pool s)) = true) ->
     saw_closed g' = true -> chclosed (resources (pool s')) = true) /\
    (m (pool s') = true ->
     holds g' = true \/ (holds g = false /\ m (pool s) = true)).
Proof.
  intros g g' s s' Hstep Hloc.
  open_pool s. unfold local_inv in *.
  destruct g; cbn in Hstep, Hloc; try discriminate Hstep;
    try (specialize (Hloc eq_refl); destruct Hloc as (Hm & Hfs & Hso & Hbc & Hdr);
         cbn in Hm; subst mu);
    cbv [atomic select_recv recv select_send close_chan call_Close call_factory
         Lock Unlock get_closed set_closed Println with_m with_closed
         with_resources emit chan_len] in Hstep;
    cbn [pool trace m resources factory closed buf cap chclosed] in Hstep;
    repeat match type of Hstep with
           | context [match ?x with _ => _ end] => is_var x; destruct x
           | context [N.ltb ?a ?b] => destruct (N.ltb a b) eqn:?
           end;
    try discriminate Hstep;
    inversion Hstep; subst; clear Hstep;
    try match goal with
        | |- context [negb ?x] => destruct x
        end;
    unfold chan_len;
    cbn [pool trace m resources factory closed buf cap chclosed
         saw_closed holds List.length fst snd negb];
    repeat match goal with
           | H : ?a = ?a -> _ |- _ => specialize (H eq_refl)
           | H : (_ <? _)%N = true |- _ => apply N.ltb_lt in H
           end;
    rewrite ?length_app; cbn [List.length];
    (split; [reflexivity|]); (split; [reflexivity|]);
    repeat split; intros; auto; try discriminate; try congruence; try arith;
    try (left; reflexivity); try (right; split; reflexivity).
Qed.

Lemma outside_not_holding :
  forall g : goroutine,
    outside g = true -> holds g = false /\ saw_closed g = false.
Proof. destruct g; cbn; try discriminate; auto. Qed.

Lemma entry_not_saw_closed :
  forall c : call, saw_closed (entry c) = false.
Proof. destruct c; reflexivity. Qed.

(** Every move of the scheduler keeps the further invariant. *)
Lemma exec_more :
  forall (fn : Factory) (size : N) (cfg : config) (im : nat * move),
    inv cfg -> inv_more fn size cfg -> inv_more fn size (exec cfg im).
Proof.
  intros fn size [s gs] [i mv] Hinv Hmore.
  pose proof Hinv as (Hglob & Hloc & Huniq & Hpan).
  pose proof Hmore as (Hcap & Hfac & Hlen & Hown & Hsaw). cbn in *.
  destruct mv as [c|]; cbn.
  - destruct (outside (gs i)) eqn:Hout; [|exact Hmore].
    destruct (outside_not_holding _ Hout) as [Hh _].
    unfold inv_more; cbn. repeat split; auto.
    + intros Hm. destruct (Hown Hm) as [j Hj]. exists j.
      rewrite upd_other; [exact Hj|]. intros ->. congruence.
    + intros j. destruct (Nat.eq_dec j i) as [->|Hne].
      * rewrite upd_same, entry_not_saw_closed. discriminate.
      * rewrite upd_other by assumption. apply Hsaw.
  - destruct (gstep (gs i) s) as [[g' s']|] eqn:Hstep; [|exact Hmore].
    destruct (gstep_more _ _ _ _ Hstep (Hloc i))
      as (Hcap' & Hfac' & Hlen' & _ & Hch' & _ & Hsaw' & Hown').
    unfold inv_more; cbn. repeat split; try congruence; auto.
    + intros Hm. destruct (Hown' Hm) as [Hg'|[Hg Hm0]].
      * exists i. rewrite upd_same. exact Hg'.
      * destruct (Hown Hm0) as [j Hj]. exists j.
        rewrite upd_other; [exact Hj|]. intros ->. congruence.
    + intros j. destruct (Nat.eq_dec j i) as [->|Hne].
      * rewrite upd_same. apply Hsaw'. apply Hsaw.
      * rewrite upd_other by assumption. intros Hj. apply Hch', (Hsaw j Hj).
Qed.

Lemma run_more :
  forall (fn : Factory) (size : N) (sched : list (nat * move)) (cfg : config),
    inv cfg -> inv_more fn size cfg ->
    inv (run sched cfg) /\ inv_more fn size (run sched cfg).
Proof.
  unfold run. intros fn size.
  induction sched as [|im sched IH]; intros cfg H1 H2; cbn; [auto|].
  apply IH; [apply exec_inv, H1 | apply exec_more; assumption].
Qed.

(** Both invariants hold in every configuration that a schedule reaches from
    a pool made by [New]. *)
Lemma reachable_more :
  forall (limit : N) (fn : Factory) (size : N) (p : Pool) (sched : list (nat * move)),
    New limit fn size [] = (Returns (Some p, None), []) ->
    inv (run sched (init p)) /\ inv_more fn size (run sched (init p)).
Proof.
  intros limit fn size p sched H.
  destruct (New_returns _ _ _ _ _ _ _ H) as (-> & _ & _ & Hpos & _).
  apply run_more.
  - apply init_inv. reflexivity.
  - unfold inv_more, chan_len; cbn. repeat split; try discriminate. arith.
Qed.

(** X9. Under every schedule the channel never holds more values than the
    capacity given to [New], and the capacity and the factory stay the ones
    given to [New]. *)
Theorem buffer_within_capacity :
  forall (limit : N) (fn : Factory) (size : N) (p : Pool) (sched : list (nat * move)),
    New limit fn size [] = (Returns (Some p, None), []) ->
    let q := pool (shared (run sched (init p))) in
    (chan_len (resources q) <= size)%N /\
    cap (resources q) = size /\
    factory q = fn /\
    (0 < size)%N.
Proof.
  intros limit fn size p sched H q.
  destruct (reachable_more limit fn size p sched H)
    as (_ & Hcap & Hfac & Hlen & _).
  fold q in Hcap, Hfac, Hlen.
  repeat split; auto; try congruence.
  destruct (New_returns _ _ _ _ _ _ _ H) as (_ & _ & _ & Hpos & _). exact Hpos.
Qed.

Lemma buffer_within_capacity_witness :
  New sample_limit sample_factory 2 [] =
    (Returns (Some (pool (sample_pool [])), None), []) /\
  (chan_len
     (resources
        (pool (shared (run sample_sched_release
                           (init (pool (sample_pool []))))))) <= 2)%N.
Proof.
  refine (conj eq_refl _).
  exact (proj1 (buffer_within_capacity sample_limit sample_factory 2 (pool (sample_pool []))
                  sample_sched_release eq_refl)).
Defined.

(** X10. The mutex under every schedule: at most one goroutine is between
    [Lock] and the deferred [Unlock]; the mutex is locked exactly when there
    is one; so when no goroutine is inside a call the mutex is free, also
    after calls that panicked; and [Unlock] is never called on a free mutex. *)
Theorem mutex_discipline :
  forall (limit : N) (fn : Factory) (size : N) (p : Pool) (sched : list (nat * move))
         (i j : nat),
    New limit fn size [] = (Returns (Some p, None), []) ->
    let cfg := run sched (init p) in
    (holds (goroutines cfg i) = true -> holds (goroutines cfg j) = true ->
     i = j) /\
    (m (pool (shared cfg)) = true <->
     exists k, holds (goroutines cfg k) = true) /\
    ((forall k, outside (goroutines cfg k) = true) ->
     m (pool (shared cfg)) = false) /\
    panic_of (goroutines cfg i) <> Some UnlockOfUnlockedMutex.
Proof.
  intros limit fn size p sched i j H cfg.
  destruct (reachable_more limit fn size p sched H)
    as ((_ & Hloc & Huniq & Hpan) & _ & _ & _ & Hown & _).
  fold cfg in Hloc, Huniq, Hpan, Hown.
  split; [apply Huniq|]. split; [split|split].
  - exact Hown.
  - intros [k Hk]. destruct (Hloc k Hk) as [Hm _]. exact Hm.
  - intros Hall. destruct (m (pool (shared cfg))) eqn:Hm; [|reflexivity].
    destruct (Hown eq_refl) as [k Hk].
    destruct (outside_not_holding _ (Hall k)) as [Hk' _]. congruence.
  - intros Hp. specialize (Hpan i _ Hp). discriminate.
Qed.

Lemma mutex_discipline_witness :
  New sample_limit sample_factory 2 [] =
    (Returns (Some (pool (sample_pool [])), None), []) /\
  (m (pool (shared (run sample_sched_mixed (init (pool (sample_pool []))))))
   = true <->
   exists k,
     holds (goroutines (run sample_sched_mixed (init (pool (sample_pool []))))
                       k) = true).
Proof.
  refine (conj eq_refl _).
  exact (proj1 (proj2 (mutex_discipline sample_limit sample_factory 2 (pool (sample_pool []))
                         sample_sched_mixed 0 1 eq_refl))).
Defined.

(** A goroutine inside a call that is not waiting for the mutex can run its
    next statement. *)
Lemma can_step :
  forall (g : goroutine) (s : State),
    outside g = false ->
    at_Lock g = false ->
    local_inv g (pool s) ->
    exists g' s', gstep g s = Some (g', s').
Proof.
  intros g s Hout Hlock Hloc. open_pool s. unfold local_inv in Hloc.
  destruct g; cbn in Hout, Hlock, Hloc; try discriminate;
    try (specialize (Hloc eq_refl); destruct Hloc as (Hm & Hfs & Hso & Hbc & Hdr);
         cbn in Hm; subst mu);
    repeat match goal with
           | H : ?a = ?a -> _ |- _ => specialize (H eq_refl)
           end;
    cbn in *; subst;
    cbv [gstep atomic select_recv recv select_send close_chan call_Close
         call_factory Lock Unlock get_closed set_closed Println with_m
         with_closed with_resources emit chan_len];
    cbn [pool trace m resources factory closed buf cap chclosed];
    repeat match goal with
           | |- context [match ?x with _ => _ end] => is_var x; destruct x
           | |- context [N.ltb ?a ?b] => destruct (N.ltb a b)
           end;
    eexists; eexists; reflexivity.
Qed.

(** A goroutine waiting for the mutex gets it when it is free. *)
Lemma lock_can_step :
  forall (g : goroutine) (s : State),
    at_Lock g = true ->
    m (pool s) = false ->
    exists g' s', gstep g s = Some (g', s').
Proof.
  intros g s Hlock Hm. open_pool s. cbn in Hm. subst mu.
  destruct g; cbn in Hlock; try discriminate; eexists; eexists; reflexivity.
Qed.

(** X11. No deadlock.  Under every schedule, a goroutine inside a call that
    is not waiting at [Lock] can always run its next statement; in
    particular the loop of [Close] never waits on the channel.  And whenever
    some goroutine is inside a call, some goroutine can run a statement:
    one waiting at [Lock] waits only while another is between [Lock] and
    [Unlock], and that one can move. *)
Theorem no_deadlock :
  forall (limit : N) (fn : Factory) (size : N) (p : Pool) (sched : list (nat * move))
         (i : nat),
    New limit fn size [] = (Returns (Some p, None), []) ->
    let cfg := run sched (init p) in
    outside (goroutines cfg i) = false ->
    (at_Lock (goroutines cfg i) = false ->
     exists g' s', gstep (goroutines cfg i) (shared cfg) = Some (g', s')) /\
    (exists j g' s', gstep (goroutines cfg j) (shared cfg) = Some (g', s')).
Proof.
  intros limit fn size p sched i H cfg Hout.
  destruct (reachable_more limit fn size p sched H)
    as ((_ & Hloc & _ & _) & _ & _ & _ & Hown & _).
  fold cfg in Hloc, Hown.
  split.
  - intros Hlock. apply can_step; auto.
  - destruct (at_Lock (goroutines cfg i)) eqn:Hlock.
    + destruct (m (pool (shared cfg))) eqn:Hm.
      * destruct (Hown eq_refl) as [j Hj]. exists j.
        apply can_step; auto;
          destruct (goroutines cfg j); cbn in *; congruence.
      * exists i. apply lock_can_step; assumption.
    + exists i. apply can_step; auto.
Qed.

Lemma no_deadlock_witness :
  New sample_limit sample_factory 2 [] =
    (Returns (Some (pool (sample_pool [])), None), []) /\
  outside (goroutines (run (firstn 5 sample_sched_mixed)
                           (init (pool (sample_pool [])))) 0) = false /\
  exists j g' s',
    gstep (goroutines (run (firstn 5 sample_sched_mixed)
                           (init (pool (sample_pool [])))) j)
          (shared (run (firstn 5 sample_sched_mixed)
                       (init (pool (sample_pool []))))) = Some (g', s').
Proof.
  refine (conj eq_refl (conj eq_refl _)).
  exact (proj2 (no_deadlock sample_limit sample_factory 2 (pool (sample_pool []))
                  (firstn 5 sample_sched_mixed) 0 eq_refl eq_refl)).
Defined.

(** One move of the scheduler never clears the flag, never reopens the
    channel, and adds nothing to the channel once the flag is set. *)
Lemma exec_monotone :
  forall (cfg : config) (im : nat * move),
    inv cfg ->
    let q := pool (shared cfg) in
    let q' := pool (shared (exec cfg im)) in
    (closed q = true -> closed q' = true) /\
    (chclosed (resources q) = true -> chclosed (resources q') = true) /\
    (closed q = true ->
     List.length (buf (resources q')) <= List.length (buf (resources q))).
Proof.
  intros [s gs] [i mv] (_ & Hloc & _ & _). cbn in *.
  destruct mv as [c|]; cbn.
  - destruct (outside (gs i)); cbn; auto.
  - destruct (gstep (gs i) s) as [[g' s']|] eqn:Hstep; cbn; auto.
    destruct (gstep_more _ _ _ _ Hstep (Hloc i))
      as (_ & _ & _ & Hc & Hch & Hlen & _).
    auto.
Qed.

Lemma run_monotone :
  forall (sched : list (nat * move)) (cfg : config),
    inv cfg ->
    let q := pool (shared cfg) in
    let q' := pool (shared (run sched cfg)) in
    (closed q = true -> closed q' = true) /\
    (chclosed (resources q) = true -> chclosed (resources q') = true) /\
    (closed q = true ->
     List.length (buf (resources q')) <= List.length (buf (resources q))).
Proof.
  unfold run. induction sched as [|im sched IH]; intros cfg Hinv; cbn.
  - auto.
  - destruct (exec_monotone cfg im Hinv) as (H1 & H2 & H3).
    destruct (IH (exec cfg im) (exec_inv cfg im Hinv)) as (H1' & H2' & H3').
    cbn in *. repeat split; auto.
    intros Hc. specialize (H3 Hc). specialize (H3' (H1 Hc)). arith.
Qed.

Lemma run_app :
  forall (a b : list (nat * move)) (cfg : config),
    run (a ++ b) cfg = run b (run a cfg).
Proof. intros. unfold run. apply fold_left_app. Qed.

(** X12. Shutdown is for good under every schedule: once the flag is set it
    stays set, once the channel is closed it stays closed, and from the
    moment the flag is set the number of values in the channel never goes
    up again. *)
Theorem shutdown_is_permanent :
  forall (limit : N) (fn : Factory) (size : N) (p : Pool)
         (before later : list (nat * move)),
    New limit fn size [] = (Returns (Some p, None), []) ->
    let q := pool (shared (run before (init p))) in
    let q' := pool (shared (run (before ++ later) (init p))) in
    (closed q = true -> closed q' = true) /\
    (chclosed (resources q) = true -> chclosed (resources q') = true) /\
    (closed q = true ->
     List.length (buf (resources q')) <= List.length (buf (resources q))).
Proof.
  intros limit fn size p before later H q q'.
  destruct (reachable_more limit fn size p before H) as (Hinv & _).
  subst q q'. rewrite run_app.
  apply (run_monotone later (run before (init p)) Hinv).
Qed.

Lemma shutdown_is_permanent_witness :
  New sample_limit sample_factory 2 [] =
    (Returns (Some (pool (sample_pool [])), None), []) /\
  closed (pool (shared (run (firstn 5 sample_sched_mixed)
                            (init (pool (sample_pool [])))))) = true /\
  closed (pool (shared (run (firstn 5 sample_sched_mixed
                             ++ skipn 5 sample_sched_mixed)
                            (init (pool (sample_pool [])))))) = true.
Proof.
  refine (conj eq_refl (conj eq_refl _)).
  exact (proj1 (shutdown_is_permanent sample_limit sample_factory 2 (pool (sample_pool []))
                  (firstn 5 sample_sched_mixed) (skipn 5 sample_sched_mixed)
                  eq_refl) eq_refl).
Defined.

(** X13. Under every schedule, a goroutine in [Acquire] whose receive
    reported the channel closed, and which is therefore about to return
    [ErrPoolClosed], finds the flag set: [ErrPoolClosed] from the receive
    branch is never returned by a pool on which [Close] has not been
    called. *)
Theorem ErrPoolClosed_only_after_Close :
  forall (limit : N) (fn : Factory) (size : N) (p : Pool) (sched : list (nat * move))
         (i : nat),
    New limit fn size [] = (Returns (Some p, None), []) ->
    let cfg := run sched (init p) in
    saw_closed (goroutines cfg i) = true ->
    closed (pool (shared cfg)) = true /\
    chclosed (resources (pool (shared cfg))) = true /\
    exists n, fst (solo n (goroutines cfg i) (shared cfg))
              = AcquireReturned None ErrPoolClosed.
Proof.
  intros limit fn size p sched i H cfg Hsaw.
  destruct (reachable_more limit fn size p sched H)
    as ((Hglob & _) & _ & _ & _ & _ & Hsc).
  fold cfg in Hglob, Hsc.
  pose proof (Hsc i Hsaw) as Hch.
  split; [apply Hglob, Hch|]. split; [exact Hch|].
  destruct (goroutines cfg i) as [| |r [|]|r [|]| | | | | | | | | | | | | | | | | | | | | |];
    cbn in Hsaw; try discriminate.
  - exists 2. reflexivity.
  - exists 1. reflexivity.
Qed.

Lemma ErrPoolClosed_only_after_Close_witness :
  New sample_limit sample_factory 2 [] =
    (Returns (Some (pool (sample_pool [])), None), []) /\
  saw_closed
    (goroutines (run (sample_sched_mixed ++ [(2, Start CallAcquire); (2, Step)])
                     (init (pool (sample_pool [])))) 2) = true /\
  closed
    (pool (shared (run (sample_sched_mixed
                        ++ [(2, Start CallAcquire); (2, Step)])
                       (init (pool (sample_pool [])))))) = true.
Proof.
  refine (conj eq_refl (conj eq_refl _)).
  exact (proj1 (ErrPoolClosed_only_after_Close
                  sample_limit sample_factory 2 (pool (sample_pool []))
                  (sample_sched_mixed ++ [(2, Start CallAcquire); (2, Step)])
                  2 eq_refl eq_refl)).
Defined.

(** * [Close] among other goroutines *)












